(** * gef::sparse_array: a shallow embedding and its liveness properties

    The development follows [option.hpp] and [sparse_array.hpp] of the
    repository.  A [gef::option<T>] is a tagged slot, the [sparse_array<T>]
    is the pair of its two public members [data_vec] and [alive_vec].

    Conventions of the model.
    - [size_t] indices are natural numbers: every index that is stored or
      dereferenced is a position in a vector, no arithmetic is done on them.
    - An operation whose C++ behaviour is undefined at some input (indexing
      [data_vec] out of range, reading the payload of an empty slot, erasing
      at or past [end()]) returns [None] there; [Some] carries the state
      after the call and the value returned.
    - A [std::vector<size_t>] is its element sequence together with its
      reserved capacity, because [sparse_array::capacity] reports the latter.
    - In the store a destroyed payload is a slot that went from [Some v] to
      [None]; [option::set] also records the destructor and constructor
      calls it makes, in order. *)

From stdpp Require Import base numbers option list strings.

(** ** gef::option<T> (primary template) *)

Module Opt.

(** The constructor and destructor calls made on payloads, in the order in
    which they are made. *)
Inductive event (T : Type) :=
  | Destroyed (v : T)
  | Constructed (v : T).
Arguments Destroyed {T} v.
Arguments Constructed {T} v.

Section option.
Context {T : Type}.

(** [has_value] returns [m_is_some]. *)
Definition has_value (o : option T) : bool :=
match o with Some _ => true | None => false end.

(** [OptionMethods::is_null] is [!self.has_value()]. *)
Definition is_null (o : option T) : bool := negb (has_value o).

(** [reset]: when a value is held, run its destructor and clear the flag;
  otherwise leave the object alone. *)
Definition reset (o : option T) : option T :=
if has_value o then None else o.

(** [value_unchecked] hands out [m_value]; reading it while the union
  holds no [T] is undefined. *)
Definition value_unchecked (o : option T) : option T :=
match o with Some v => Some v | None => None end.

(** Placement construction of the payload [v] over the slot's storage,
  with the flag raised. *)
Definition construct (v : T) (o : option T) : option T := Some v.

(** [reset], with the destructor call it makes: the slot it leaves and the
    payload destroyed, if there was one. *)
Definition reset_traced (o : option T) : option T * list (event T) :=
  if has_value o
  then (None, match o with Some v => [Destroyed v] | None => [] end)
  else (o, []).

(** [set(args...)]: [reset()], raise the flag, construct in place, and
    return [value_unchecked()].  [v] is the payload built from [args].  The
    result is the slot, the reference returned, and the destructor and
    constructor calls made, in order. *)
Definition set (v : T) (o : option T) : option T * option T * list (event T) :=
  let '(o1, destroyed) := reset_traced o in
  let o' := construct v o1 in
  (o', value_unchecked o', destroyed ++ [Constructed v]).
End option.
End Opt.

(** ** std::vector<size_t>, as far as [alive_vec] uses it *)

Record vec := Vec { elems : list nat; cap : nat }.

Section vector.
(** The capacity an implementation picks when [emplace_back] finds the
    storage full is implementation-defined; it is a parameter here. *)
Variable growth : nat → nat.

Definition vec_empty : vec := Vec [] 0.
Definition vec_size (v : vec) : nat := length (elems v).
Definition vec_capacity (v : vec) : nat := cap v.

(** [reserve(n)]: no effect when [n] does not exceed the capacity,
    otherwise the storage is reallocated for [n] elements. *)
Definition vec_reserve (n : nat) (v : vec) : vec :=
  Vec (elems v) (if decide (cap v < n) then n else cap v).

(** [emplace_back(x)]: appends, reallocating first when full. *)
Definition vec_emplace_back (x : nat) (v : vec) : vec :=
  Vec (elems v ++ [x])
      (if decide (length (elems v) < cap v) then cap v
       else S (length (elems v)) `max` growth (cap v)).

(** [clear()]: drops the elements and keeps the storage. *)
Definition vec_clear (v : vec) : vec := Vec [] (cap v).
End vector.

(** *** Erasing while a range-for walks the vector

    [erase_at] calls [alive_vec.erase] inside [for (size_t& s : alive_vec)]
    and goes on iterating.  The loop's [begin]/[end] were taken before the
    first erase, and a vector iterator is a pointer into the storage, so the
    walk visits every cell below the *initial* end, whatever the vector's
    size has become.  [erase(begin() + pos)] moves the elements after [pos]
    one cell down and shrinks the vector by one; the cell of the old last
    element keeps its bits.  The loop state is therefore the storage [buf]
    (as long as the initial size) and the current size [sz]; the vector's
    elements are [take sz buf].

    The language standard invalidates the loop's iterator at the first
    erase; the model follows what the walk does on the storage, which is
    what the library implementations execute with unchecked iterators.
    Only an erase at a position that is not below the current size, where
    the implementations part ways, is left undefined ([None]). *)

Definition buf_erase (buf : list nat) (sz pos : nat) : option (list nat) :=
  if decide (pos < sz)
  then Some (take pos buf ++ take (sz - S pos) (drop (S pos) buf) ++ drop (sz - 1) buf)
  else None.

(** [steps] cells remain to be visited, starting at cell [pos]. *)
Fixpoint erase_scan (index : nat) (steps pos : nat) (buf : list nat) (sz : nat)
  : option (list nat * nat) :=
  match steps with
  | 0 => Some (buf, sz)
  | S steps' =>
      match buf !! pos with
      | None => None
      | Some s =>
          if decide (s = index) then
            match buf_erase buf sz pos with
            | Some buf' => erase_scan index steps' (S pos) buf' (sz - 1)
            | None => None
            end
          else erase_scan index steps' (S pos) buf sz
      end
  end.

Definition vec_erase_each (index : nat) (v : vec) : option vec :=
  match erase_scan index (length (elems v)) 0 (elems v) (length (elems v)) with
  | Some (buf, sz) => Some (Vec (take sz buf) (cap v))
  | None => None
  end.

(** ** gef::sparse_array<T> *)

Section sparse_array.
Context {T : Type}.
Variable growth : nat → nat.

Record sparse_array := SparseArray {
  data_vec : list (option T);
  alive_vec : vec
}.

(** [sparse_array()] *)
Definition new : sparse_array := SparseArray [] vec_empty.

(** [capacity()] is [alive_vec.capacity()], [size()] is [alive_vec.size()]. *)
Definition capacity (st : sparse_array) : nat := vec_capacity (alive_vec st).
Definition size (st : sparse_array) : nat := vec_size (alive_vec st).

(** [resize(new_capacity)]: [data_vec.resize] truncates or pads with empty
    options, [alive_vec.reserve] only touches the reservation. *)
Definition resize (new_capacity : nat) (st : sparse_array) : sparse_array :=
  SparseArray
    (take new_capacity (data_vec st)
       ++ replicate (new_capacity - length (data_vec st)) None)
    (vec_reserve new_capacity (alive_vec st)).

(** [sparse_array(size)] *)
Definition with_size (n : nat) : sparse_array := resize n new.

(** [at(index)] (and [operator[]], which forwards to it). *)
Definition at_ (index : nat) (st : sparse_array) : option T :=
  slot ← data_vec st !! index; Opt.value_unchecked slot.

(** [emplace_at(index, args...)]: [alive_vec.emplace_back(index)], then
    [data_vec[index].set(args...)], whose result is returned. *)
Definition emplace_at (index : nat) (v : T) (st : sparse_array)
  : option (sparse_array * T) :=
  let alive := vec_emplace_back growth index (alive_vec st) in
  slot ← data_vec st !! index;
  let '(slot', ref, _) := Opt.set v slot in
  r ← ref;
  Some (SparseArray (<[index := slot']> (data_vec st)) alive, r).

(** The destructor and constructor calls [emplace_at(index, args...)] makes
    on payloads: those of [data_vec[index].set(args...)]. *)
Definition emplace_at_lifetime (index : nat) (v : T) (st : sparse_array)
  : option (list (Opt.event T)) :=
  slot ← data_vec st !! index;
  Some (Opt.set v slot).2.

(** [next_empty_index()]: the scan of [data_vec] in increasing order. *)
Fixpoint first_null (d : list (option T)) (i : nat) : option nat :=
  match d with
  | [] => None
  | item :: d' => if Opt.is_null item then Some i else first_null d' (S i)
  end.

Definition next_empty_index (st : sparse_array) : option nat :=
  if decide (size st = capacity st) then None
  else first_null (data_vec st) 0.

(** [erase_at(index)]: the erasing walk over [alive_vec], then
    [data_vec[index].reset()]. *)
Definition erase_at (index : nat) (st : sparse_array) : option sparse_array :=
  alive ← vec_erase_each index (alive_vec st);
  slot ← data_vec st !! index;
  Some (SparseArray (<[index := Opt.reset slot]> (data_vec st)) alive).

(** [clear()] *)
Definition clear (st : sparse_array) : sparse_array :=
  SparseArray (Opt.reset <$> data_vec st) (vec_clear (alive_vec st)).

(** *** Operations taking a callable

    A callable may own state (its captures); [A] is the type of that
    state and every call threads it.  *)
Section callables.
Context {A : Type}.

(** The lambda [erase_if] hands to [std::erase_if]: call [f] on
    [at(index)]; on [true] reset the slot.  [f] receives the payload by
    reference; as a predicate it is taken to leave the payload alone. *)
Definition erase_if_lambda (f : T → A → bool * A) (index : nat)
    (d : list (option T)) (a : A) : option (bool * list (option T) * A) :=
  slot ← d !! index;
  v ← Opt.value_unchecked slot;
  let '(b, a') := f v a in
  if b then Some (true, <[index := Opt.reset slot]> d, a')
  else Some (false, d, a').

(** [std::erase_if] on a vector is [remove_if] followed by an [erase] of
    the tail: one left-to-right pass that applies the predicate to each
    element once and keeps, in order, those it rejects. *)
Fixpoint std_erase_if (f : T → A → bool * A) (l : list nat)
    (d : list (option T)) (a : A) : option (list nat * list (option T) * A) :=
  match l with
  | [] => Some ([], d, a)
  | index :: l' =>
      '(b, d1, a1) ← erase_if_lambda f index d a;
      '(kept, d2, a2) ← std_erase_if f l' d1 a1;
      Some (if b : bool then kept else index :: kept, d2, a2)
  end.

Definition erase_if (f : T → A → bool * A) (st : sparse_array) (a : A)
  : option (sparse_array * A) :=
  '(kept, d, a') ← std_erase_if f (elems (alive_vec st)) (data_vec st) a;
  Some (SparseArray d (Vec kept (cap (alive_vec st))), a').

(** [for_each(f)]: for every element [index] of [alive_vec], in order,
    call [f(at(index), index)].  The visitor gets the payload by
    reference and may assign to it: it returns the payload it leaves in
    the slot.  (It is taken not to write through the index reference.) *)
Fixpoint for_each_loop (f : T → nat → A → T * A) (l : list nat)
    (d : list (option T)) (a : A) : option (list (option T) * A) :=
  match l with
  | [] => Some (d, a)
  | index :: l' =>
      slot ← d !! index;
      v ← Opt.value_unchecked slot;
      let '(v', a') := f v index a in
      for_each_loop f l' (<[index := Some v']> d) a'
  end.

Definition for_each (f : T → nat → A → T * A) (st : sparse_array) (a : A)
  : option (sparse_array * A) :=
  '(d, a') ← for_each_loop f (elems (alive_vec st)) (data_vec st) a;
  Some (SparseArray d (alive_vec st), a').
End callables.
End sparse_array.

Arguments sparse_array : clear implicits.

(** ** Observations used in the statements *)

Section observations.
Context {T : Type}.
Variable growth : nat → nat.
Implicit Types (st : sparse_array T) (i index : nat).

(** Slot [i] exists and holds a payload / exists and is empty. *)
Definition occupied st i : Prop := ∃ v, data_vec st !! i = Some (Some v).
Definition vacant st i : Prop := data_vec st !! i = Some None.

(** The number of slots that hold a payload. *)
Definition count_occupied st : nat :=
  length (filter (λ o : option T, Opt.has_value o) (data_vec st)).

(** How many times [i] occurs in a list of indices. *)
Definition occurrences i (l : list nat) : nat :=
  length (filter (λ s, s = i) l).

(** The liveness invariant: [alive_vec] has no duplicates, each of its
    elements is an occupied slot, and each occupied slot occurs in it
    exactly once. *)
Definition live_inv st : Prop :=
  NoDup (elems (alive_vec st))
  ∧ (∀ i, i ∈ elems (alive_vec st) → occupied st i)
  ∧ (∀ i, occupied st i → occurrences i (elems (alive_vec st)) = 1).

(** Sequences of [emplace_at] / [erase_at] calls. *)
Inductive call :=
  | EmplaceAt (index : nat) (v : T)
  | EraseAt (index : nat).

Definition target (c : call) : nat :=
  match c with EmplaceAt index _ | EraseAt index => index end.

Definition do_call (c : call) st : option (sparse_array T) :=
  match c with
  | EmplaceAt index v => fst <$> emplace_at growth index v st
  | EraseAt index => erase_at index st
  end.

Fixpoint run (cs : list call) st : option (sparse_array T) :=
  match cs with
  | [] => Some st
  | c :: cs' => st' ← do_call c st; run cs' st'
  end.

(** The indices of the occupied slots of [d], the first slot being
    numbered [i]. *)
Fixpoint occupied_from i (d : list (option T)) : list nat :=
  match d with
  | [] => []
  | o :: d' =>
      if Opt.has_value o then i :: occupied_from (S i) d'
      else occupied_from (S i) d'
  end.

(** No [emplace_at] of the sequence targets an index that is live at that
    moment; [live] is the content of [alive_vec] before the calls.  Erasing
    a live index and emplacing into it again is allowed. *)
Fixpoint no_double_emplace (live : list nat) (cs : list call) : Prop :=
  match cs with
  | [] => True
  | EmplaceAt index _ :: cs' =>
      (index ∉ live) ∧ no_double_emplace (live ++ [index]) cs'
  | EraseAt index :: cs' =>
      no_double_emplace (filter (λ s, s ≠ index) live) cs'
  end.

(** A sequence of calls that stays within [data_vec] and never emplaces
    into a slot that is occupied at that moment. *)
Fixpoint emplaces_vacant (cs : list call) st : Prop :=
  match cs with
  | [] => True
  | c :: cs' =>
      target c < length (data_vec st)
      ∧ (∀ index v, c = EmplaceAt index v → vacant st index)
      ∧ ∀ st', do_call c st = Some st' → emplaces_vacant cs' st'
  end.

(** The stores a client can build through the member functions. *)
Inductive built : sparse_array T → Prop :=
  | built_new : built new
  | built_resize n st : built st → built (resize n st)
  | built_emplace_at index v st st' r :
      built st → emplace_at growth index v st = Some (st', r) → built st'
  | built_erase_at index st st' :
      built st → erase_at index st = Some st' → built st'
  | built_erase_if {A} (f : T → A → bool * A) st st' a a' :
      built st → erase_if f st a = Some (st', a') → built st'
  | built_for_each {A} (f : T → nat → A → T * A) st st' a a' :
      built st → for_each f st a = Some (st', a') → built st'
  | built_clear st : built st → built (clear st).

(** A predicate [p] used as a callable that also updates its own state
    with [h] at each call. *)
Definition observing {A} (p : T → bool) (h : T → A → A) : T → A → bool * A :=
  λ v a, (p v, h v a).

(** [p] holds of the payload in slot [i]. *)
Definition holds_at (p : T → bool) (d : list (option T)) i : bool :=
  match d !! i with Some (Some v) => p v | _ => false end.

(** The state of the callable after one more call, on the payload in
    slot [i] of [d]. *)
Definition called_on {A} (h : T → A → A) (d : list (option T)) (a : A) i : A :=
  match d !! i with Some (Some v) => h v a | _ => a end.

(** A visitor that, next to what [f] does, appends each call's arguments
    to a log. *)
Definition traced {A} (f : T → nat → A → T * A)
  : T → nat → A * list (T * nat) → T * (A * list (T * nat)) :=
  λ v i s, let '(v', a') := f v i s.1 in (v', (a', s.2 ++ [(v, i)])).
End observations.

(** ** The remaining member functions of the store *)

Section more_operations.
Context {T : Type}.
Variable growth : nat → nat.
Implicit Types (st : sparse_array T) (i index : nat).

(** [first_if(f)]: walk [alive_vec] in order and return [at(index)] for
    the first element whose payload [f] accepts, or [nullopt].  The result
    is a [gef::option<T&>]: the slot the reference points into, with the
    payload read through it.  As in [erase_if], [f] is taken to leave the
    payload alone. *)
Fixpoint first_if_loop {A} (f : T → A → bool * A) (l : list nat)
    (d : list (option T)) (a : A) : option (option (nat * T) * A) :=
  match l with
  | [] => Some (None, a)
  | index :: l' =>
      slot ← d !! index;
      v ← Opt.value_unchecked slot;
      let '(b, a') := f v a in
      if b : bool then r ← Opt.value_unchecked slot; Some (Some (index, r), a')
      else first_if_loop f l' d a'
  end.

Definition first_if {A} (f : T → A → bool * A) st (a : A)
  : option (option (nat * T) * A) :=
  first_if_loop f (elems (alive_vec st)) (data_vec st) a.

(** The stores a client builds when no [emplace_at] hits an occupied slot
    and no [resize] cuts off a live index. *)
Inductive tidy : sparse_array T → Prop :=
  | tidy_new : tidy new
  | tidy_resize n st :
      tidy st → (∀ i, i ∈ elems (alive_vec st) → i < n) → tidy (resize n st)
  | tidy_emplace_at index v st st' r :
      tidy st → vacant st index →
      emplace_at growth index v st = Some (st', r) → tidy st'
  | tidy_erase_at index st st' :
      tidy st → erase_at index st = Some st' → tidy st'
  | tidy_erase_if {A} (f : T → A → bool * A) st st' a a' :
      tidy st → erase_if f st a = Some (st', a') → tidy st'
  | tidy_for_each {A} (f : T → nat → A → T * A) st st' a a' :
      tidy st → for_each f st a = Some (st', a') → tidy st'
  | tidy_clear st : tidy st → tidy (clear st).

(** A visitor that has no state and replaces each payload by [g]. *)
Definition mapping (g : T → nat → T) : T → nat → unit → T * unit :=
  λ v i u, (g v i, u).
End more_operations.

(** ** gef::OptionMethods<T>

    The combinators every [gef::option] inherits, on the primary template.
    A callable that returns a value is a function; [F_null] and the
    callable of [or_else] take no argument. *)

Module OptionMethods.
Section methods.
Context {T U R : Type}.

(** [transform(f)]: an option holding [f(value)], or [nullopt]. *)
Definition transform (f : T → U) (o : option T) : option U :=
  if Opt.has_value o then match o with Some v => Some (f v) | None => None end
  else None.

(** [and_then(f)]: [f(value)], itself an option, or [nullopt]. *)
Definition and_then (f : T → option U) (o : option T) : option U :=
  if Opt.has_value o then match o with Some v => f v | None => None end
  else None.

(** [or_else(f)]: the option itself when it holds a value, else [f()]. *)
Definition or_else (f : unit → option T) (o : option T) : option T :=
  if Opt.has_value o then o else f ().

(** [map_or(f, or_val)] *)
Definition map_or (f : T → R) (or_val : R) (o : option T) : R :=
  if Opt.has_value o then match o with Some v => f v | None => or_val end
  else or_val.

(** [map_or_else(f_val, f_null)] *)
Definition map_or_else (f_val : T → R) (f_null : unit → R) (o : option T) : R :=
  if Opt.has_value o then match o with Some v => f_val v | None => f_null () end
  else f_null ().
End methods.
End OptionMethods.

(** ** byte_buffer

    The block behind [buffer] is a list of cells, as long as the last
    allocation; a cell is [None] until a byte has been written to it
    ([malloc] and the grown part of a [realloc] hand out indeterminate
    bytes).  A null [buffer] is [None].  Allocation is taken to succeed.
    [memcpy] into or out of the block is undefined when the range leaves the
    block or [buffer] is null; no member function checks [buffer_size()]. *)

Module ByteBuffer.

Definition cell : Type := option Byte.byte.

Record byte_buffer := Build {
  buffer : option (list cell);
  rw_size : nat;
  _buffer_size : nat
}.

(** [byte_buffer()] *)
Definition new : byte_buffer := Build None 0 0.

(** [byte_buffer(init_bytes)] *)
Definition with_bytes (init_bytes : nat) : byte_buffer :=
  Build (Some (replicate init_bytes None)) 0 init_bytes.

(** [reserve(init_bytes)]: [malloc] when [buffer] is null, else [realloc],
    which keeps the cells up to the smaller of the two sizes.  The cursor
    is not touched. *)
Definition reserve (init_bytes : nat) (bb : byte_buffer) : byte_buffer :=
  Build
    (Some match buffer bb with
          | None => replicate init_bytes None
          | Some b => take init_bytes b ++ replicate (init_bytes - length b) None
          end)
    (rw_size bb) init_bytes.

(** [copy_back(from, size)]: [from] is the [size] bytes to copy. *)
Definition copy_back (from : list Byte.byte) (bb : byte_buffer)
  : option byte_buffer :=
  b ← buffer bb;
  if decide (rw_size bb + length from ≤ length b) then
    Some (Build
            (Some (take (rw_size bb) b ++ (Some <$> from)
                     ++ drop (rw_size bb + length from) b))
            (rw_size bb + length from) (_buffer_size bb))
  else None.

(** [load_front(to, size)]: the result carries the cells copied to [to]. *)
Definition load_front (size : nat) (bb : byte_buffer)
  : option (list cell * byte_buffer) :=
  b ← buffer bb;
  if decide (rw_size bb + size ≤ length b) then
    Some (take size (drop (rw_size bb) b),
          Build (Some b) (rw_size bb + size) (_buffer_size bb))
  else None.

(** [buffer_size()] *)
Definition buffer_size (bb : byte_buffer) : nat := _buffer_size bb.

(** Sequences of calls; the run collects what each [load_front] copied. *)
Inductive call :=
  | Reserve (init_bytes : nat)
  | CopyBack (from : list Byte.byte)
  | LoadFront (size : nat).

Fixpoint run (cs : list call) (bb : byte_buffer)
  : option (list (list cell) * byte_buffer) :=
  match cs with
  | [] => Some ([], bb)
  | Reserve n :: cs' => run cs' (reserve n bb)
  | CopyBack from :: cs' => bb' ← copy_back from bb; run cs' bb'
  | LoadFront n :: cs' =>
      '(got, bb') ← load_front n bb;
      '(rest, bb'') ← run cs' bb';
      Some (got :: rest, bb'')
  end.

(** No cell at or after the cursor has been written. *)
Definition unwritten_ahead (bb : byte_buffer) : Prop :=
  ∀ b, buffer bb = Some b → Forall (λ c : cell, c = None) (drop (rw_size bb) b).

End ByteBuffer.

(** ** Stores used as examples *)

(** Doubling, the growth policy of libstdc++ and libc++. *)
Definition doubling (c : nat) : nat := 2 * c.

(** Slots 1 and 3 hold 10 and 30; slot 3 was emplaced first. *)
Definition demo_store : sparse_array nat :=
  SparseArray [None; Some 10; None; Some 30] (Vec [3; 1] 4).

(** * Properties *)

(** ** The erasing walk *)

Section erase_scan_facts.
Implicit Types (buf l : list nat) (index pos sz steps : nat).

(** Cells that hold no [index] are walked over without effect. *)
Lemma erase_scan_skip index steps pos buf sz :
  pos + steps ≤ length buf →
  (∀ k, pos ≤ k < pos + steps → buf !! k ≠ Some index) →
  erase_scan index steps pos buf sz = Some (buf, sz).
Proof.
  revert pos. induction steps as [|steps IH]; intros pos Hlen Hcells; [done|].
  simpl. destruct (buf !! pos) as [s|] eqn:Hs.
  - destruct (decide (s = index)) as [->|_].
    + exfalso. apply (Hcells pos); [lia|done].
    + apply IH; [lia|]. intros k Hk. apply Hcells. lia.
  - apply lookup_ge_None in Hs. lia.
Qed.

(** A walk of [n + steps] cells whose first [n] hold no [index] is the
    walk of the last [steps]. *)
Lemma erase_scan_prefix index n steps pos buf sz :
  (∀ k, pos ≤ k < pos + n → ∃ s, buf !! k = Some s ∧ s ≠ index) →
  erase_scan index (n + steps) pos buf sz
  = erase_scan index steps (pos + n) buf sz.
Proof.
  revert pos. induction n as [|n IH]; intros pos Hcells.
  { by rewrite Nat.add_0_r. }
  simpl. destruct (Hcells pos) as (s & -> & Hne); [lia|].
  rewrite decide_False by done.
  rewrite IH; [f_equal; lia|]. intros k Hk. apply Hcells. lia.
Qed.

(** [erase] in the middle of a full buffer. *)
Lemma buf_erase_middle l1 x l2 :
  buf_erase (l1 ++ x :: l2) (length (l1 ++ x :: l2)) (length l1)
  = Some (l1 ++ l2 ++ drop (length l2) (x :: l2)).
Proof.
  unfold buf_erase. rewrite length_app. simpl.
  rewrite decide_True by lia. do 2 f_equal.
  - by rewrite take_app_length.
  - f_equal.
    + replace (length l1 + S (length l2) - S (length l1)) with (length l2) by lia.
      rewrite (assoc_L (++) l1 [x] l2 : l1 ++ x :: l2 = (l1 ++ [x]) ++ l2).
      rewrite drop_app_length'; [|rewrite length_app; simpl; lia].
      by rewrite take_ge.
    + rewrite drop_app_ge by lia. f_equal. lia.
Qed.

(** The walk over a vector in which [index] occurs once removes that
    occurrence and nothing else: the cell read past the new end holds the
    old last element, which is not [index]. *)
Lemma erase_scan_once index l1 l2 :
  index ∉ l1 → index ∉ l2 →
  ∃ buf, erase_scan index (length (l1 ++ index :: l2)) 0
           (l1 ++ index :: l2) (length (l1 ++ index :: l2))
         = Some (buf, length (l1 ++ l2))
       ∧ take (length (l1 ++ l2)) buf = l1 ++ l2.
Proof.
  intros H1 H2. exists (l1 ++ l2 ++ drop (length l2) (index :: l2)). split.
  - replace (length (l1 ++ index :: l2)) with (length l1 + S (length l2)) at 1
      by (rewrite length_app; simpl; lia).
    rewrite erase_scan_prefix; last first.
    { intros k Hk. destruct (lookup_lt_is_Some_2 l1 k) as [s Hs]; [lia|].
      exists s. split; [by rewrite lookup_app_l by lia|].
      intros ->. apply H1. by eapply list_elem_of_lookup_2. }
    simpl. rewrite list_lookup_middle by done.
    rewrite decide_True by done. rewrite buf_erase_middle.
    replace (length (l1 ++ index :: l2) - 1) with (length (l1 ++ l2))
      by (rewrite !length_app; simpl; lia).
    apply erase_scan_skip.
    { rewrite !length_app, length_drop. simpl. lia. }
    intros k Hk Hcell.
    rewrite lookup_app_r in Hcell by lia.
    destruct (decide (k - length l1 < length l2)) as [Hlt|Hge].
    + rewrite lookup_app_l in Hcell by done.
      apply H2. by eapply list_elem_of_lookup_2.
    + rewrite lookup_app_r, lookup_drop in Hcell by lia.
      replace (length l2 + (k - length l1 - length l2)) with (S (length l2 - 1))
        in Hcell by lia.
      simpl in Hcell. apply H2. by eapply list_elem_of_lookup_2.
  - rewrite (assoc_L (++)). by rewrite take_app_length.
Qed.

(** A vector without [index] is left as it was. *)
Lemma erase_scan_absent index l :
  index ∉ l →
  erase_scan index (length l) 0 l (length l) = Some (l, length l).
Proof.
  intros Hl. apply erase_scan_skip; [done|].
  intros k _ Hk. apply Hl. by eapply list_elem_of_lookup_2.
Qed.

(** Whatever the walk erases is an [index]: the other elements stay, in
    their order. *)
Lemma erase_scan_others index steps pos buf sz buf' sz' :
  sz ≤ length buf →
  erase_scan index steps pos buf sz = Some (buf', sz') →
  filter (λ s, s ≠ index) (take sz' buf') = filter (λ s, s ≠ index) (take sz buf)
  ∧ sz' ≤ length buf'.
Proof.
  revert pos buf sz. induction steps as [|steps IH]; intros pos buf sz Hsz Hrun.
  { simpl in Hrun. by simplify_eq. }
  simpl in Hrun. destruct (buf !! pos) as [s|] eqn:Hs; [|done].
  destruct (decide (s = index)) as [->|Hne]; [|by eapply IH].
  unfold buf_erase in Hrun. destruct (decide (pos < sz)) as [Hpos|]; [|done].
  apply IH in Hrun as [-> Hlen].
  - split; [|done].
    rewrite (assoc_L (++)), take_app_le; last first.
    { rewrite length_app, !length_take, length_drop. lia. }
    rewrite take_ge; last first.
    { rewrite length_app, !length_take, length_drop. lia. }
    rewrite <-(take_drop_middle buf pos index Hs) at 3.
    rewrite take_app_ge; last (rewrite length_take; lia).
    rewrite length_take, Nat.min_l by lia.
    replace (sz - pos) with (S (sz - S pos)) by lia. simpl.
    rewrite !filter_app, filter_cons_False; [done|]. by intros [].
  - rewrite !length_app, !length_take, !length_drop. lia.
Qed.
End erase_scan_facts.

(** ** Counting occurrences *)

Section occurrences_facts.
Implicit Types (l : list nat) (i : nat).

Lemma occurrences_absent i l : i ∉ l → occurrences i l = 0.
Proof.
  intros Hi. unfold occurrences.
  induction l as [|x l IH]; [done|].
  apply not_elem_of_cons in Hi as [Hx Hl].
  rewrite filter_cons_False by done. by apply IH.
Qed.

Lemma occurrences_app i l1 l2 :
  occurrences i (l1 ++ l2) = occurrences i l1 + occurrences i l2.
Proof. unfold occurrences. by rewrite filter_app, length_app. Qed.

Lemma occurrences_cons_eq i l : occurrences i (i :: l) = S (occurrences i l).
Proof. unfold occurrences. by rewrite filter_cons_True. Qed.

Lemma occurrences_cons_ne i x l : x ≠ i → occurrences i (x :: l) = occurrences i l.
Proof. intros. unfold occurrences. by rewrite filter_cons_False. Qed.

Lemma occurrences_elem_of i l : i ∈ l → 0 < occurrences i l.
Proof.
  induction l as [|x l IH]; [by intros ?%elem_of_nil|].
  intros [->|Hl]%elem_of_cons.
  - rewrite occurrences_cons_eq. lia.
  - destruct (decide (x = i)) as [->|].
    + rewrite occurrences_cons_eq. lia.
    + rewrite occurrences_cons_ne by done. by apply IH.
Qed.

Lemma occurrences_NoDup i l : NoDup l → occurrences i l ≤ 1.
Proof.
  induction 1 as [|x l Hx _ IH]; [unfold occurrences; simpl; lia|].
  destruct (decide (x = i)) as [->|].
  - rewrite occurrences_cons_eq, occurrences_absent by done. lia.
  - by rewrite occurrences_cons_ne.
Qed.

(** An index that occurs at most once is absent or splits the list. *)
Lemma occurrences_le_1 i l :
  occurrences i l ≤ 1 →
  i ∉ l ∨ ∃ l1 l2, l = l1 ++ i :: l2 ∧ (i ∉ l1) ∧ (i ∉ l2).
Proof.
  intros Hocc. destruct (decide (i ∈ l)) as [Hi|]; [right|left; done].
  apply list_elem_of_split in Hi as (l1 & l2 & ->).
  rewrite occurrences_app, occurrences_cons_eq in Hocc.
  exists l1, l2. split; [done|].
  split; intros ?%occurrences_elem_of; lia.
Qed.

Lemma filter_ne_absent i l : i ∉ l → filter (λ s, s ≠ i) l = l.
Proof.
  induction l as [|x l IH]; [done|]. intros [Hx Hl]%not_elem_of_cons.
  rewrite filter_cons_True by done. by rewrite IH.
Qed.

Lemma filter_ne_once i l1 l2 :
  i ∉ l1 → i ∉ l2 → filter (λ s, s ≠ i) (l1 ++ i :: l2) = l1 ++ l2.
Proof.
  intros H1 H2. rewrite filter_app, filter_cons_False by (by intros []).
  by rewrite !filter_ne_absent.
Qed.

Lemma occurrences_filter_ne i j l :
  i ≠ j → occurrences j (filter (λ s, s ≠ i) l) = occurrences j l.
Proof.
  intros Hij. unfold occurrences. rewrite list_filter_filter.
  f_equal. apply list_filter_iff. intros s. split; [by intros []|].
  intros ->. by split.
Qed.
End occurrences_facts.

(** ** [alive_vec.erase] under the walk of [erase_at] *)

Section vec_erase_each_facts.
Implicit Types (v : vec) (index : nat).

(** With at most one occurrence the walk removes it, and is defined. *)
Lemma vec_erase_each_le_1 index v :
  occurrences index (elems v) ≤ 1 →
  vec_erase_each index v
  = Some (Vec (filter (λ s, s ≠ index) (elems v)) (cap v)).
Proof.
  destruct v as [l c]. simpl. unfold vec_erase_each. simpl.
  intros [Hl|(l1 & l2 & -> & H1 & H2)]%occurrences_le_1.
  - rewrite erase_scan_absent by done.
    by rewrite take_ge, filter_ne_absent.
  - destruct (erase_scan_once index l1 l2 H1 H2) as (buf & -> & ->).
    by rewrite filter_ne_once.
Qed.

(** Whenever the walk is defined, the elements other than [index] are
    kept in their order and the reservation is untouched. *)
Lemma vec_erase_each_others index v v' :
  vec_erase_each index v = Some v' →
  filter (λ s, s ≠ index) (elems v') = filter (λ s, s ≠ index) (elems v)
  ∧ cap v' = cap v.
Proof.
  unfold vec_erase_each. intros Hrun.
  destruct (erase_scan _ _ _ _ _) as [[buf sz]|] eqn:Hscan; [|done].
  simplify_eq. simpl. split; [|done].
  apply erase_scan_others in Hscan as [-> _]; [|done].
  by rewrite take_ge.
Qed.
End vec_erase_each_facts.

(** ** The operations of the store *)

Section sparse_array_facts.
Context {T : Type}.
Variable growth : nat → nat.
Implicit Types (st : sparse_array T) (d : list (option T)) (v : T).
Implicit Types (i j k index : nat).

Lemma reset_empty (o : option T) : Opt.reset o = None.
Proof. by destruct o. Qed.

(** The traced [reset] leaves the slot that [reset] leaves, and destroys
    exactly the payload the slot held. *)
Lemma reset_traced_reset (o : option T) :
  (Opt.reset_traced o).1 = Opt.reset o
  ∧ (Opt.reset_traced o).2
    = match o with Some u => [Opt.Destroyed u] | None => [] end.
Proof. by destruct o. Qed.

Lemma occupied_lt st i : occupied st i → i < length (data_vec st).
Proof. intros [v Hv]. by eapply lookup_lt_Some. Qed.

Lemma occupied_vacant st i : occupied st i → vacant st i → False.
Proof. intros [v Hv] Hn. unfold vacant in Hn. congruence. Qed.

Lemma slot_cases st i :
  i < length (data_vec st) → occupied st i ∨ vacant st i.
Proof.
  intros [[v|] Ho]%lookup_lt_is_Some_2; [left; by exists v|by right].
Qed.

(** [emplace_at] is defined exactly on the indices of [data_vec]. *)
Lemma emplace_at_Some st index v :
  index < length (data_vec st) →
  emplace_at growth index v st
  = Some (SparseArray (<[index := Some v]> (data_vec st))
            (vec_emplace_back growth index (alive_vec st)), v).
Proof.
  intros [slot Hslot]%lookup_lt_is_Some_2.
  unfold emplace_at. rewrite Hslot. by destruct slot.
Qed.

Lemma emplace_at_inv st index v st' r :
  emplace_at growth index v st = Some (st', r) →
  index < length (data_vec st)
  ∧ r = v
  ∧ st' = SparseArray (<[index := Some v]> (data_vec st))
            (vec_emplace_back growth index (alive_vec st)).
Proof.
  unfold emplace_at. destruct (data_vec st !! index) as [slot|] eqn:Hslot; [|done].
  destruct slot; simpl; intros [= <- <-]; (split; [by eapply lookup_lt_Some|done]).
Qed.

(** [erase_at] on an in-range index that occurs at most once. *)
Lemma erase_at_Some st index :
  index < length (data_vec st) →
  occurrences index (elems (alive_vec st)) ≤ 1 →
  erase_at index st
  = Some (SparseArray (<[index := None]> (data_vec st))
            (Vec (filter (λ s, s ≠ index) (elems (alive_vec st)))
               (cap (alive_vec st)))).
Proof.
  intros [slot Hslot]%lookup_lt_is_Some_2 Hocc.
  unfold erase_at. rewrite vec_erase_each_le_1 by done. simpl.
  rewrite Hslot. by destruct slot.
Qed.

Lemma erase_at_inv st index st' :
  erase_at index st = Some st' →
  index < length (data_vec st)
  ∧ data_vec st' = <[index := None]> (data_vec st)
  ∧ filter (λ s, s ≠ index) (elems (alive_vec st'))
    = filter (λ s, s ≠ index) (elems (alive_vec st))
  ∧ cap (alive_vec st') = cap (alive_vec st).
Proof.
  unfold erase_at.
  destruct (vec_erase_each index (alive_vec st)) as [alive|] eqn:Hwalk; [|done].
  simpl. destruct (data_vec st !! index) as [slot|] eqn:Hslot; [|done].
  simpl. intros [= <-]. simpl.
  apply vec_erase_each_others in Hwalk as [? ?].
  split; [by eapply lookup_lt_Some|]. by destruct slot.
Qed.

(** *** The liveness invariant *)

Lemma live_inv_alt st :
  live_inv st ↔
  NoDup (elems (alive_vec st))
  ∧ ∀ i, i ∈ elems (alive_vec st) ↔ occupied st i.
Proof.
  split.
  - intros (Hnd & Hao & Hoa). split; [done|]. intros i. split; [apply Hao|].
    intros Hi%Hoa. destruct (decide (i ∈ elems (alive_vec st))); [done|].
    rewrite occurrences_absent in Hi by done. lia.
  - intros (Hnd & Hiff). split_and!; [done|by intros i ?%Hiff|].
    intros i Hi%Hiff. pose proof (occurrences_NoDup i _ Hnd).
    pose proof (occurrences_elem_of i _ Hi). lia.
Qed.

Lemma lookup_resize_new n i :
  data_vec (with_size n : sparse_array T) !! i
  = if decide (i < n) then Some None else None.
Proof.
  unfold with_size, resize. simpl. rewrite Nat.sub_0_r.
  rewrite take_nil. simpl.
  case_decide; [by apply lookup_replicate_2|].
  apply lookup_replicate_None. lia.
Qed.

Lemma occupied_same_slot st st' i :
  data_vec st' !! i = data_vec st !! i → occupied st' i ↔ occupied st i.
Proof. intros Heq. unfold occupied. by rewrite Heq. Qed.

Lemma live_inv_with_size n : live_inv (with_size n : sparse_array T).
Proof.
  apply live_inv_alt. split; [constructor|].
  intros i. split; [by intros ?%elem_of_nil|].
  intros [v Hv]. rewrite lookup_resize_new in Hv. by case_decide.
Qed.

(** Emplacing into a vacant slot keeps the invariant. *)
Lemma live_inv_emplace_at st index v :
  live_inv st → vacant st index →
  live_inv (SparseArray (<[index := Some v]> (data_vec st))
              (vec_emplace_back growth index (alive_vec st))).
Proof.
  intros [Hnd Hiff]%live_inv_alt Hvac. apply live_inv_alt. simpl.
  assert (index ∉ elems (alive_vec st)) as Hfresh.
  { intros Hin%Hiff. by eapply occupied_vacant. }
  split.
  - apply NoDup_app. split_and!; [done| |apply NoDup_singleton].
    intros i Hi ->%list_elem_of_singleton. done.
  - intros i. rewrite elem_of_app, list_elem_of_singleton.
    destruct (decide (i = index)) as [->|Hne].
    + split; [|by right]. intros _. exists v. simpl.
      apply list_lookup_insert_eq. by eapply lookup_lt_Some.
    + rewrite Hiff. unfold occupied. simpl.
      rewrite list_lookup_insert_ne by done. split; [by intros [|]|by left].
Qed.

(** Erasing keeps the invariant, whether or not the slot was occupied. *)
Lemma live_inv_erase_at st index :
  live_inv st →
  live_inv (SparseArray (<[index := None]> (data_vec st))
              (Vec (filter (λ s, s ≠ index) (elems (alive_vec st)))
                 (cap (alive_vec st)))).
Proof.
  intros [Hnd Hiff]%live_inv_alt. apply live_inv_alt. simpl.
  split; [by apply NoDup_filter|].
  intros i. rewrite list_elem_of_filter, Hiff. unfold occupied. simpl.
  destruct (decide (i = index)) as [->|Hne].
  - split; [by intros []|]. intros [v Hv].
    destruct (decide (index < length (data_vec st))).
    + rewrite list_lookup_insert_eq in Hv by done. done.
    + rewrite list_insert_ge in Hv by lia.
      apply lookup_lt_Some in Hv. lia.
  - rewrite list_lookup_insert_ne by done. split; [by intros []|done].
Qed.

(** *** [size()] counts the occupied slots *)

Lemma length_occupied_from i d :
  length (occupied_from i d) = length (filter (λ o : option T, Opt.has_value o) d).
Proof.
  revert i. induction d as [|o d IH]; intros i; [done|].
  rewrite filter_cons. destruct o as [v|]; simpl; [by rewrite IH|apply IH].
Qed.

Lemma elem_of_occupied_from i d x :
  x ∈ occupied_from i d ↔ ∃ j v, x = i + j ∧ d !! j = Some (Some v).
Proof.
  revert i. induction d as [|o d IH]; intros i; simpl.
  { rewrite elem_of_nil. split; [done|by intros (j & v & _ & ?)]. }
  assert (x ∈ occupied_from (S i) d ↔
          ∃ j v, x = i + S j ∧ (o :: d) !! S j = Some (Some v)) as Htail.
  { rewrite IH. simpl. split; intros (j & v & -> & ?); exists j, v; split; [lia|done|lia|done]. }
  destruct o as [w|]; simpl.
  - rewrite elem_of_cons, Htail. split.
    + intros [->|(j & v & ? & ?)]; [exists 0, w; split; [lia|done]|by exists (S j), v].
    + intros ([|j] & v & -> & ?); [left; lia|right; by exists j, v].
  - rewrite Htail. split.
    + intros (j & v & ? & ?). by exists (S j), v.
    + intros ([|j] & v & -> & ?); [done|by exists j, v].
Qed.

Lemma NoDup_occupied_from i d : NoDup (occupied_from i d).
Proof.
  revert i. induction d as [|o d IH]; intros i; simpl; [constructor|].
  destruct o; [|apply IH]. apply NoDup_cons. split; [|apply IH].
  rewrite elem_of_occupied_from. intros (j & v & ? & _). lia.
Qed.

Lemma size_count_occupied st : live_inv st → size st = count_occupied st.
Proof.
  intros [Hnd Hiff]%live_inv_alt.
  unfold size, vec_size, count_occupied. rewrite <-(length_occupied_from 0).
  apply Permutation_length, NoDup_Permutation; [done|apply NoDup_occupied_from|].
  intros i. rewrite Hiff, elem_of_occupied_from. unfold occupied.
  split; [intros [v ?]; by exists i, v|by intros (j & v & -> & ?); exists v].
Qed.

(** *** Sequences of calls *)

(** One call that does not emplace into an occupied slot: it is defined,
    keeps the invariant, and touches no slot but its target. *)
Lemma do_call_live_inv st c :
  live_inv st →
  target c < length (data_vec st) →
  (∀ index v, c = EmplaceAt index v → vacant st index) →
  ∃ st', do_call growth c st = Some st'
       ∧ live_inv st'
       ∧ length (data_vec st') = length (data_vec st)
       ∧ ∀ i, i ≠ target c → data_vec st' !! i = data_vec st !! i.
Proof.
  intros Hinv Hlt Hvac. destruct c as [index v|index]; simpl in *.
  - rewrite emplace_at_Some by done. simpl. eexists. split; [done|].
    split_and!; simpl.
    + apply live_inv_emplace_at; [done|]. by eapply Hvac.
    + apply length_insert.
    + intros i Hi. by rewrite list_lookup_insert_ne.
  - rewrite erase_at_Some; [|done|apply occurrences_NoDup, Hinv].
    eexists. split; [done|]. split_and!; simpl.
    + by apply live_inv_erase_at.
    + apply length_insert.
    + intros i Hi. by rewrite list_lookup_insert_ne.
Qed.

Lemma run_emplaces_vacant cs st k :
  live_inv st → emplaces_vacant growth cs st →
  ∃ st', run growth (take k cs) st = Some st' ∧ live_inv st'.
Proof.
  revert st k. induction cs as [|c cs IH]; intros st k Hinv Hcs.
  { rewrite take_nil. by exists st. }
  destruct k as [|k]; [by exists st|]. simpl.
  destruct Hcs as (Hlt & Hvac & Hrest).
  destruct (do_call_live_inv st c) as (st1 & Hcall & Hinv1 & _); [done..|].
  rewrite Hcall. simpl. apply IH; [done|]. by apply Hrest.
Qed.

(** Calls on pairwise distinct targets, all vacant to begin with, never
    emplace into an occupied slot. *)
Lemma distinct_emplaces_vacant cs st :
  live_inv st →
  NoDup (target <$> cs) →
  Forall (λ c, vacant st (target c)) cs →
  emplaces_vacant growth cs st.
Proof.
  revert st. induction cs as [|c cs IH]; intros st Hinv Hnd Hvac; [done|].
  apply NoDup_cons in Hnd as [Hc Hnd]. apply Forall_cons in Hvac as [Hvc Hvac].
  simpl. split_and!.
  - by eapply lookup_lt_Some.
  - by intros index v ->.
  - intros st' Hcall.
    destruct (do_call_live_inv st c) as (st1 & Hcall1 & Hinv1 & _ & Hframe);
      [done|by eapply lookup_lt_Some|by intros index v ->|].
    simplify_eq. apply IH; [done..|].
    apply Forall_forall. intros c' Hc'. unfold vacant.
    rewrite Hframe; [by eapply Forall_forall in Hvac|].
    intros Heq. apply Hc. rewrite <-Heq. by apply list_elem_of_fmap_2.
Qed.

(** Calls that never emplace a live index never emplace into an occupied
    slot: under the invariant the live indices are the occupied slots. *)
Lemma no_double_emplace_emplaces_vacant cs st :
  live_inv st →
  Forall (λ c, target c < length (data_vec st)) cs →
  no_double_emplace (elems (alive_vec st)) cs →
  emplaces_vacant growth cs st.
Proof.
  revert st. induction cs as [|c cs IH]; intros st Hinv Hlt Hcs; [done|].
  apply Forall_cons in Hlt as [Hc Hlt].
  destruct c as [index v|index]; simpl in *.
  - destruct Hcs as [Hfresh Hcs].
    assert (vacant st index) as Hvac.
    { destruct (slot_cases st index Hc) as [Hocc|?]; [|done].
      destruct Hfresh. by apply live_inv_alt in Hinv as [_ Hiff]; apply Hiff. }
    split_and!; [done|by intros ? ? [= <- _]|].
    intros st'. rewrite emplace_at_Some by done. intros [= <-].
    apply IH; simpl.
    + by apply live_inv_emplace_at.
    + eapply Forall_impl; [exact Hlt|]. intros c ?. by rewrite length_insert.
    + done.
  - split_and!; [done|by intros ? ? [=]|].
    intros st'. rewrite erase_at_Some; [|done|apply occurrences_NoDup, Hinv].
    intros [= <-]. apply IH; simpl.
    + by apply live_inv_erase_at.
    + eapply Forall_impl; [exact Hlt|]. intros c ?. by rewrite length_insert.
    + done.
Qed.

(** *** [erase_if] *)

(** The pass of [std::erase_if] over distinct, occupied indices.  [d0] is
    the slot storage when the call began; [d] agrees with it on the
    indices still to be visited. *)
Lemma std_erase_if_spec {A} (p : T → bool) (h : T → A → A) l d d0 a :
  NoDup l →
  (∀ i, i ∈ l → d !! i = d0 !! i) →
  (∀ i, i ∈ l → ∃ v, d0 !! i = Some (Some v)) →
  ∃ d', std_erase_if (observing p h) l d a
        = Some (filter (λ i, ¬ holds_at p d0 i) l, d', foldl (called_on h d0) a l)
      ∧ length d' = length d
      ∧ (∀ j, j ∈ l → holds_at p d0 j → d' !! j = Some None)
      ∧ (∀ j, ¬ (j ∈ l ∧ holds_at p d0 j) → d' !! j = d !! j).
Proof.
  revert d a. induction l as [|index l IH]; intros d a Hnd Hagree Hocc.
  { exists d. split_and!; [done..| |done]. by intros j ?%elem_of_nil. }
  apply NoDup_cons in Hnd as [Hfresh Hnd].
  destruct (Hocc index) as [v Hv]; [left|].
  assert (d !! index = Some (Some v)) as Hd by (rewrite Hagree; [done|left]).
  assert (holds_at p d0 index = p v) as Hp by (unfold holds_at; by rewrite Hv).
  assert (called_on h d0 a index = h v a) as Hh by (unfold called_on; by rewrite Hv).
  simpl. unfold erase_if_lambda. rewrite Hd. simpl. rewrite Hh.
  destruct (p v) eqn:Hpv; simpl.
  - rewrite reset_empty.
    destruct (IH (<[index := None]> d) (h v a)) as (d' & -> & Hlen & Hgone & Hkept);
      [done| |by intros; apply Hocc; right|].
    { intros i Hi. rewrite list_lookup_insert_ne by (by intros ->).
      apply Hagree. by right. }
    simpl. exists d'. rewrite filter_cons_False by (rewrite Hp; by intros []).
    split_and!; [done|by rewrite Hlen, length_insert| |].
    + intros j [->|Hj]%elem_of_cons Hholds; [|by apply Hgone].
      rewrite Hkept by (by intros []).
      apply list_lookup_insert_eq. by eapply lookup_lt_Some.
    + intros j Hj. rewrite Hkept.
      * apply list_lookup_insert_ne. intros ->. apply Hj.
        split; [left|by rewrite Hp].
      * intros [? ?]. apply Hj. split; [by right|done].
  - destruct (IH d (h v a)) as (d' & -> & Hlen & Hgone & Hkept);
      [done|by intros; apply Hagree; right|by intros; apply Hocc; right|].
    simpl. exists d'. rewrite filter_cons_True by (rewrite Hp; by intros ?).
    split_and!; [done..| |].
    + intros j [->|Hj]%elem_of_cons Hholds; [|by apply Hgone].
      by rewrite Hp in Hholds.
    + intros j Hj. apply Hkept. intros [? ?]. apply Hj. split; [by right|done].
Qed.

(** *** [for_each] *)

Lemma occupied_insert_payload d index v v' j :
  d !! index = Some (Some v) →
  (∃ w, <[index := Some v']> d !! j = Some (Some w))
  ↔ (∃ w, d !! j = Some (Some w)).
Proof.
  intros Hd. destruct (decide (j = index)) as [->|Hne].
  - rewrite list_lookup_insert_eq by (by eapply lookup_lt_Some).
    split; intros _; eauto.
  - by rewrite list_lookup_insert_ne.
Qed.

(** The loop of [for_each] over occupied indices, run with a visitor and
    with its traced version.  [log'] is what the traced run appends. *)
Lemma for_each_loop_spec {A} (f : T → nat → A → T * A) l d a log :
  (∀ i, i ∈ l → ∃ v, d !! i = Some (Some v)) →
  ∃ d' a' log',
    for_each_loop (traced f) l d (a, log) = Some (d', (a', log ++ log'))
    ∧ for_each_loop f l d a = Some (d', a')
    ∧ log'.*2 = l
    ∧ length d' = length d
    ∧ (∀ j, j ∉ l → d' !! j = d !! j)
    ∧ (∀ j, (∃ w, d' !! j = Some (Some w)) ↔ (∃ w, d !! j = Some (Some w)))
    ∧ (NoDup l → ∀ d0, (∀ i, i ∈ l → d !! i = d0 !! i) →
       Forall2 (λ i c, c.2 = i ∧ d0 !! i = Some (Some c.1)) l log').
Proof.
  revert d a log. induction l as [|index l IH]; intros d a log Hocc.
  { exists d, a, []. rewrite app_nil_r. split_and!; try done; intros; constructor. }
  destruct (Hocc index) as [v Hv]; [left|].
  simpl. rewrite Hv. simpl. unfold traced at 1. simpl.
  destruct (f v index a) as [v' a1] eqn:Hf.
  destruct (IH (<[index := Some v']> d) a1 (log ++ [(v, index)]))
    as (d' & a' & log' & Htr & Hrun & Hidx & Hlen & Hframe & Hslots & Hpay).
  { intros i Hi. apply (occupied_insert_payload d index v v' i Hv).
    apply Hocc. by right. }
  exists d', a', ((v, index) :: log').
  split_and!.
  - by rewrite Htr, <-(assoc_L (++)).
  - done.
  - rewrite fmap_cons. simpl. by f_equal.
  - by rewrite Hlen, length_insert.
  - intros j [Hne Hj]%not_elem_of_cons. rewrite Hframe by done.
    by apply list_lookup_insert_ne.
  - intros j. rewrite Hslots. by apply occupied_insert_payload with v.
  - intros [Hfresh Hnd]%NoDup_cons d0 Hagree. constructor.
    + split; [done|]. rewrite <-Hagree by left. done.
    + apply Hpay; [done|]. intros i Hi.
      rewrite list_lookup_insert_ne by (by intros ->).
      apply Hagree. by right.
Qed.

(** *** [next_empty_index] and [clear] *)

Lemma first_null_Some d i0 r :
  first_null d i0 = Some r →
  ∃ j, r = i0 + j ∧ d !! j = Some None
     ∧ ∀ j', j' < j → ∃ v, d !! j' = Some (Some v).
Proof.
  revert i0. induction d as [|o d IH]; intros i0; [done|]. simpl.
  destruct o as [v|]; simpl.
  - intros (j & -> & Hj & Hbelow)%IH. exists (S j). split_and!; [lia|done|].
    intros [|j'] Hlt; [by exists v|]. apply Hbelow. lia.
  - intros [= <-]. exists 0. split_and!; [lia|done|]. intros j' Hlt. lia.
Qed.

Lemma first_null_None d i0 :
  first_null d i0 = None → ∀ j, j < length d → ∃ v, d !! j = Some (Some v).
Proof.
  revert i0. induction d as [|o d IH]; intros i0; simpl; [intros _ j; lia|].
  destruct o as [v|]; simpl; [|done].
  intros Hd [|j] Hlt; [by exists v|]. simpl. eapply IH; [done|lia].
Qed.

Lemma filter_all_occupied d :
  (∀ j, j < length d → ∃ v, d !! j = Some (Some v)) →
  filter (λ o : option T, Opt.has_value o) d = d.
Proof.
  induction d as [|o d IH]; intros Hall; [done|].
  destruct (Hall 0) as [v [= ->]]; [simpl; lia|].
  rewrite filter_cons_True by done. f_equal. apply IH.
  intros j Hj. apply (Hall (S j)). simpl. lia.
Qed.

Lemma fmap_reset d : Opt.reset <$> d = replicate (length d) None.
Proof.
  induction d as [|o d IH]; [done|]. rewrite fmap_cons, reset_empty, IH. done.
Qed.

(** The calls recorded by a callable that logs its argument. *)
Lemma foldl_called_on_log l d (log : list T) :
  (∀ i, i ∈ l → ∃ v, d !! i = Some (Some v)) →
  ∃ log', foldl (called_on (λ v (acc : list T), acc ++ [v]) d) log l = log ++ log'
        ∧ Forall2 (λ i v, d !! i = Some (Some v)) l log'.
Proof.
  revert log. induction l as [|index l IH]; intros log Hocc.
  { exists []. by rewrite app_nil_r. }
  destruct (Hocc index) as [v Hv]; [left|].
  destruct (IH (log ++ [v])) as (log' & Hfold & Hlog);
    [by intros; apply Hocc; right|].
  exists (v :: log'). simpl. unfold called_on at 2. rewrite Hv.
  rewrite Hfold, <-(assoc_L (++)). split; [done|by constructor].
Qed.

(** Erasing an index that [alive_vec] does not hold and whose slot is
    empty changes nothing. *)
Lemma erase_at_absent_vacant st index :
  index ∉ elems (alive_vec st) → vacant st index → erase_at index st = Some st.
Proof.
  intros Habs Hvac. rewrite erase_at_Some;
    [|by eapply lookup_lt_Some|rewrite occurrences_absent by done; lia].
  rewrite filter_ne_absent by done. rewrite list_insert_id by done.
  by destruct st as [d [l c]].
Qed.

(** *** The reservation covers the slots *)

Lemma length_std_erase_if {A} (f : T → A → bool * A) l d a kept d' a' :
  std_erase_if f l d a = Some (kept, d', a') → length d' = length d.
Proof.
  revert d a kept d' a'. induction l as [|index l IH]; intros d a kept d' a' Hrun.
  { simpl in Hrun. by simplify_eq. }
  simpl in Hrun. unfold erase_if_lambda in Hrun.
  destruct (d !! index) as [[v|]|]; simplify_eq/=.
  destruct (f v a) as [[] a1]; simpl in Hrun.
  - destruct (std_erase_if f l _ a1) as [[[? ?] ?]|] eqn:Hrest; simplify_eq/=.
    apply IH in Hrest. by rewrite Hrest, length_insert.
  - destruct (std_erase_if f l _ a1) as [[[? ?] ?]|] eqn:Hrest; simplify_eq/=.
    by apply IH in Hrest.
Qed.

Lemma length_for_each_loop {A} (f : T → nat → A → T * A) l d a d' a' :
  for_each_loop f l d a = Some (d', a') → length d' = length d.
Proof.
  revert d a. induction l as [|index l IH]; intros d a Hrun.
  { simpl in Hrun. by simplify_eq. }
  simpl in Hrun. destruct (d !! index) as [[v|]|]; simplify_eq/=.
  destruct (f v index a) as [v' a1]. apply IH in Hrun.
  by rewrite Hrun, length_insert.
Qed.

(** Every store built through the member functions has a reservation of
    at least its slot count, so a store with a slot has a non-zero
    [capacity()]. *)
Lemma built_slots_le_capacity st :
  built growth st → length (data_vec st) ≤ capacity st.
Proof.
  unfold capacity, vec_capacity.
  induction 1 as [|n st _ IH|index v st st' r _ IH Hcall|index st st' _ IH Hcall
                  |A f st st' a a' _ IH Hcall|A f st st' a a' _ IH Hcall
                  |st _ IH]; simpl.
  - done.
  - rewrite length_app, length_take, length_replicate. case_decide; lia.
  - apply emplace_at_inv in Hcall as (_ & _ & ->). simpl.
    rewrite length_insert. case_decide; lia.
  - apply erase_at_inv in Hcall as (_ & -> & _ & ->). by rewrite length_insert.
  - unfold erase_if in Hcall.
    destruct (std_erase_if _ _ _ _) as [[[kept d] a1]|] eqn:Hrun; simplify_eq/=.
    apply length_std_erase_if in Hrun. lia.
  - unfold for_each in Hcall.
    destruct (for_each_loop _ _ _ _) as [[d a1]|] eqn:Hrun; simplify_eq/=.
    apply length_for_each_loop in Hrun. lia.
  - by rewrite length_fmap.
Qed.
End sparse_array_facts.

(** * The claims *)

Section claims.
Context {T : Type}.
Variable growth : nat → nat.
Implicit Types (st : sparse_array T) (v w : T) (i j k index n : nat).

(** C1 (liveness invariant).  Take a store just built with [n] slots and
    any sequence of [emplace_at] / [erase_at] calls with targets below [n]
    in which every [emplace_at] is on an index distinct from the live ones:
    either all targets are pairwise distinct, or, more generally, no
    [emplace_at] targets an index that is live at that moment (a live index
    may be erased, and emplaced again afterwards).  Every prefix of the
    sequence runs without undefined behaviour, and in the store it leaves
    [alive_vec] has no duplicates, each of its elements is an occupied
    slot, each occupied slot occurs in it exactly once, and [size()] is the
    number of occupied slots. *)
Theorem liveness_invariant_after_each_call n (cs : list (@call T)) k :
  NoDup (target <$> cs) ∨ no_double_emplace [] cs →
  Forall (λ c, target c < n) cs →
  ∃ st, run growth (take k cs) (with_size n) = Some st
      ∧ NoDup (elems (alive_vec st))
      ∧ (∀ i, i ∈ elems (alive_vec st) → occupied st i)
      ∧ (∀ i, occupied st i → occurrences i (elems (alive_vec st)) = 1)
      ∧ size st = count_occupied st.
Proof.
  intros Hcs Hlt.
  assert (length (data_vec (with_size n : sparse_array T)) = n) as Hslots.
  { unfold with_size, resize. simpl. rewrite take_nil. simpl.
    rewrite length_replicate. lia. }
  destruct (run_emplaces_vacant growth cs (with_size n) k) as (st & Hrun & Hinv).
  - apply live_inv_with_size.
  - destruct Hcs as [Hnd|Hfresh].
    + apply distinct_emplaces_vacant; [apply live_inv_with_size|done|].
      eapply Forall_impl; [done|]. intros c Hc. unfold vacant.
      rewrite lookup_resize_new. by rewrite decide_True.
    + apply no_double_emplace_emplaces_vacant;
        [apply live_inv_with_size|by rewrite Hslots|done].
  - exists st. split; [done|].
    pose proof (size_count_occupied st Hinv) as Hsize.
    destruct Hinv as (? & ? & ?). done.
Qed.

(** C5 ([emplace_at]).  For an index within [data_vec], [emplace_at]
    appends the index to [alive_vec] whatever the store looks like,
    leaves the new payload in the slot in place of any earlier one, and
    returns that payload.  On payloads it first runs the destructor of the
    slot's earlier occupant, when there is one, and then the constructor of
    the new payload, and nothing else.  A second [emplace_at] on the same
    index leaves the index twice at the end of [alive_vec], which then has
    a duplicate, and destroys the payload of the first call before it
    constructs its own. *)
Theorem emplace_at_appends_unconditionally st index v :
  index < length (data_vec st) →
  ∃ st', emplace_at growth index v st = Some (st', v)
       ∧ elems (alive_vec st') = elems (alive_vec st) ++ [index]
       ∧ data_vec st' = <[index := Some v]> (data_vec st)
       ∧ at_ index st' = Some v
       ∧ emplace_at_lifetime index v st
         = Some match data_vec st !! index with
                | Some (Some u) => [Opt.Destroyed u; Opt.Constructed v]
                | _ => [Opt.Constructed v]
                end
       ∧ ∀ w, ∃ st'', emplace_at growth index w st' = Some (st'', w)
                ∧ elems (alive_vec st'') = elems (alive_vec st) ++ [index; index]
                ∧ ¬ NoDup (elems (alive_vec st''))
                ∧ at_ index st'' = Some w
                ∧ emplace_at_lifetime index w st'
                  = Some [Opt.Destroyed v; Opt.Constructed w].
Proof.
  intros Hlt. rewrite emplace_at_Some by done.
  exists (SparseArray (<[index := Some v]> (data_vec st))
            (vec_emplace_back growth index (alive_vec st))).
  split; [done|]. simpl.
  split_and!; [done|done|by unfold at_; simpl; rewrite list_lookup_insert_eq| |].
  { unfold emplace_at_lifetime.
    destruct (lookup_lt_is_Some_2 _ _ Hlt) as [slot ->]. by destruct slot. }
  intros w. rewrite emplace_at_Some by (simpl; by rewrite length_insert).
  exists (SparseArray (<[index := Some w]> (<[index := Some v]> (data_vec st)))
            (vec_emplace_back growth index
               (vec_emplace_back growth index (alive_vec st)))).
  split; [done|]. simpl. rewrite <-(assoc_L (++)). simpl.
  split_and!; [done| | |].
  - intros (_ & _ & [Hin _]%NoDup_cons)%NoDup_app. apply Hin. left.
  - unfold at_. simpl. rewrite list_lookup_insert_eq; [done|].
    by rewrite length_insert.
  - unfold emplace_at_lifetime. simpl. by rewrite list_lookup_insert_eq.
Qed.

(** C6 (round trip).  For an index within [data_vec]: [emplace_at(i, v)]
    followed by [at(i)] yields [v]; whenever [erase_at(i)] has run, a
    following [emplace_at(i, v2)] and [at(i)] yield [v2]; and from a store
    whose [alive_vec] does not hold [i] the whole chain [emplace_at],
    [erase_at], [emplace_at], [at] is defined and ends with [v2]. *)
Theorem emplace_at_round_trip st i v v2 :
  i < length (data_vec st) →
  (∃ st1, emplace_at growth i v st = Some (st1, v) ∧ at_ i st1 = Some v)
  ∧ (∀ st2, erase_at i st = Some st2 →
       ∃ st3, emplace_at growth i v2 st2 = Some (st3, v2) ∧ at_ i st3 = Some v2)
  ∧ (i ∉ elems (alive_vec st) →
       ∃ st1 st2 st3,
         emplace_at growth i v st = Some (st1, v)
         ∧ erase_at i st1 = Some st2
         ∧ vacant st2 i
         ∧ emplace_at growth i v2 st2 = Some (st3, v2)
         ∧ at_ i st3 = Some v2).
Proof.
  intros Hlt.
  assert (∀ st0 u, i < length (data_vec st0) →
            ∃ st1, emplace_at growth i u st0 = Some (st1, u) ∧ at_ i st1 = Some u)
    as Hemplace.
  { intros st0 u Hst0. rewrite emplace_at_Some by done. eexists. split; [reflexivity|].
    unfold at_. simpl. by rewrite list_lookup_insert_eq. }
  split_and!.
  - by apply Hemplace.
  - intros st2 (_ & Hdata & _)%erase_at_inv. apply Hemplace.
    by rewrite Hdata, length_insert.
  - intros Hfresh.
    set (st1 := SparseArray (<[i := Some v]> (data_vec st))
                  (vec_emplace_back growth i (alive_vec st))).
    set (st2 := SparseArray (<[i := None]> (data_vec st1))
                  (Vec (filter (λ s, s ≠ i) (elems (alive_vec st1)))
                     (cap (alive_vec st1)))).
    assert (i < length (data_vec st1)) as Hlt1
      by (unfold st1; simpl; by rewrite length_insert).
    assert (i < length (data_vec st2)) as Hlt2
      by (unfold st2; simpl; by rewrite length_insert).
    destruct (Hemplace st2 v2 Hlt2) as (st3 & Hst3 & Hat).
    exists st1, st2, st3. split_and!; [by apply emplace_at_Some| | |done..].
    + apply erase_at_Some; [done|]. unfold st1. simpl.
      rewrite occurrences_app, occurrences_absent by done.
      rewrite occurrences_cons_eq. unfold occurrences. simpl. lia.
    + unfold vacant, st2. simpl. by apply list_lookup_insert_eq.
Qed.

(** C7 ([clear]).  [clear()] leaves every slot empty, [alive_vec] empty
    and [capacity()] as it was, so [size()] is 0; when the store has at
    least one slot and a non-zero [capacity()], [next_empty_index()] then
    returns index 0.  For a store built through the member functions one
    slot is enough, the reservation being at least the slot count. *)
Theorem clear_empties_the_store st :
  data_vec (clear st) = replicate (length (data_vec st)) None
  ∧ elems (alive_vec (clear st)) = []
  ∧ capacity (clear st) = capacity st
  ∧ size (clear st) = 0
  ∧ (0 < length (data_vec st) → 0 < capacity st →
     next_empty_index (clear st) = Some 0)
  ∧ (built growth st → 0 < length (data_vec st) →
     next_empty_index (clear st) = Some 0).
Proof.
  assert (0 < length (data_vec st) → 0 < capacity st →
          next_empty_index (clear st) = Some 0) as Hzero; last first.
  { split_and!; [apply fmap_reset|done..|].
    intros Hbuilt%built_slots_le_capacity Hslots. apply Hzero; lia. }
  intros Hslots Hcap. unfold next_empty_index.
  rewrite decide_False
    by (unfold size, capacity, vec_size, vec_capacity, clear in *; simpl; lia).
  simpl. destruct (data_vec st) as [|o d]; [simpl in Hslots; lia|].
  simpl. by rewrite reset_empty.
Qed.

(** C10 (default construction).  A default-constructed store has
    [size() == 0] and [capacity() == 0], and [next_empty_index()] gives
    no value; the answer comes from the [size() == capacity()] test, so it
    is the same whatever [data_vec] holds. *)
Theorem default_constructed_store :
  size (new : sparse_array T) = 0
  ∧ capacity (new : sparse_array T) = 0
  ∧ next_empty_index (new : sparse_array T) = None
  ∧ ∀ d : list (option T), next_empty_index (SparseArray d vec_empty) = None.
Proof. by split_and!. Qed.

(** C8 (frame).  For distinct indices [k] and [j], an [emplace_at] or an
    [erase_at] aimed at [k] leaves slot [j] and the number of times [j]
    occurs in [alive_vec] as they were (both calls are defined for [k]
    within [data_vec], the erase when [k] occurs at most once in
    [alive_vec]); and [resize] to at least the present slot count keeps
    every existing slot and the elements of [alive_vec]. *)
Theorem untargeted_slots_are_stable st k j v :
  k ≠ j →
  (∀ st' r, emplace_at growth k v st = Some (st', r) →
     data_vec st' !! j = data_vec st !! j
     ∧ occurrences j (elems (alive_vec st')) = occurrences j (elems (alive_vec st)))
  ∧ (∀ st', erase_at k st = Some st' →
     data_vec st' !! j = data_vec st !! j
     ∧ occurrences j (elems (alive_vec st')) = occurrences j (elems (alive_vec st)))
  ∧ (k < length (data_vec st) → is_Some (emplace_at growth k v st))
  ∧ (k < length (data_vec st) → occurrences k (elems (alive_vec st)) ≤ 1 →
     is_Some (erase_at k st))
  ∧ (∀ n, length (data_vec st) ≤ n →
     length (data_vec (resize n st)) = n
     ∧ elems (alive_vec (resize n st)) = elems (alive_vec st)
     ∧ ∀ i, i < length (data_vec st) →
         data_vec (resize n st) !! i = data_vec st !! i).
Proof.
  intros Hkj. split_and!.
  - intros st' r (_ & _ & ->)%emplace_at_inv. simpl.
    split; [by apply list_lookup_insert_ne|].
    rewrite occurrences_app, occurrences_cons_ne by done.
    unfold occurrences at 2. simpl. lia.
  - intros st' (_ & -> & Hothers & _)%erase_at_inv.
    split; [by apply list_lookup_insert_ne|].
    rewrite <-(occurrences_filter_ne k j (elems (alive_vec st'))) by done.
    rewrite Hothers. by apply occurrences_filter_ne.
  - intros Hk. by rewrite emplace_at_Some.
  - intros Hk Hocc. by rewrite erase_at_Some.
  - intros n Hn. unfold resize. simpl. split_and!; [|done|].
    + rewrite length_app, length_take, length_replicate. lia.
    + intros i Hi. rewrite take_ge by done. by apply lookup_app_l.
Qed.

(** C3 ([next_empty_index], as the code has it).  For every store the
    result is either no value or the lowest-numbered empty slot; it is no
    value whenever [size() == capacity()], and otherwise only when no slot
    is empty.  For a store that satisfies the liveness invariant and whose
    [capacity()] equals its slot count, no value is returned exactly when
    [size() == capacity()], and otherwise the lowest-numbered empty slot
    is. *)
Theorem next_empty_index_lowest_vacant st :
  (size st = capacity st → next_empty_index st = None)
  ∧ (∀ i, next_empty_index st = Some i →
       vacant st i ∧ ∀ j, j < i → occupied st j)
  ∧ (next_empty_index st = None →
       size st = capacity st ∨ ∀ j, j < length (data_vec st) → occupied st j)
  ∧ (live_inv st → capacity st = length (data_vec st) →
       (next_empty_index st = None ↔ size st = capacity st)
       ∧ (size st ≠ capacity st →
          ∃ i, next_empty_index st = Some i
             ∧ vacant st i ∧ ∀ j, j < i → occupied st j)).
Proof.
  assert (∀ i, next_empty_index st = Some i →
            vacant st i ∧ ∀ j, j < i → occupied st j) as Hsome.
  { unfold next_empty_index. intros i. case_decide; [done|].
    intros (j & -> & Hj & Hbelow)%first_null_Some. simpl. done. }
  assert (next_empty_index st = None →
            size st = capacity st ∨ ∀ j, j < length (data_vec st) → occupied st j)
    as Hnone.
  { unfold next_empty_index. case_decide; [by left|].
    intros Hscan. right. by eapply first_null_None. }
  split_and!; [|done|done|].
  - intros Heq. unfold next_empty_index. by rewrite decide_True.
  - intros Hinv Hcap.
    assert (next_empty_index st = None → size st = capacity st) as Hfull.
    { intros [?|Hall]%Hnone; [done|].
      rewrite (size_count_occupied st Hinv), Hcap. unfold count_occupied.
      by rewrite filter_all_occupied. }
    split.
    + split; [done|]. intros Heq. unfold next_empty_index. by rewrite decide_True.
    + intros Hne. destruct (next_empty_index st) as [i|] eqn:Hres.
      * exists i. split; [done|]. by apply Hsome.
      * by destruct Hne; apply Hfull.
Qed.

(** C4 ([erase_if]).  On a store that satisfies the liveness invariant,
    [erase_if(p)] is defined; it removes from [alive_vec] exactly the
    indices whose payload satisfied [p] when the call began and keeps the
    others in their order; it empties the slots of the removed indices and
    leaves all other slots alone; [size()] drops by the number of
    matches; and the predicate is called once for each element of the
    initial [alive_vec], in that order, on the payload the slot held when
    the call began (shown both for an arbitrary state [h] of the callable
    and for the log of its arguments). *)
Theorem erase_if_removes_exactly_the_matches {A} st (p : T → bool)
    (h : T → A → A) (a : A) :
  live_inv st →
  ∃ st',
    erase_if (observing p h) st a
    = Some (st', foldl (called_on h (data_vec st)) a (elems (alive_vec st)))
    ∧ elems (alive_vec st')
      = filter (λ i, ¬ holds_at p (data_vec st) i) (elems (alive_vec st))
    ∧ (∀ i, i ∈ elems (alive_vec st) → holds_at p (data_vec st) i → vacant st' i)
    ∧ (∀ i, ¬ (i ∈ elems (alive_vec st) ∧ holds_at p (data_vec st) i) →
         data_vec st' !! i = data_vec st !! i)
    ∧ size st'
      + length (filter (λ i, Is_true (holds_at p (data_vec st) i))
                  (elems (alive_vec st)))
      = size st
    ∧ capacity st' = capacity st
    ∧ live_inv st'
    ∧ ∃ log, erase_if (observing p (λ v (acc : list T), acc ++ [v])) st []
             = Some (st', log)
           ∧ Forall2 (λ i v, data_vec st !! i = Some (Some v))
               (elems (alive_vec st)) log.
Proof.
  intros Hinv. pose proof Hinv as [Hnd Hiff]%live_inv_alt.
  assert (∀ i, i ∈ elems (alive_vec st) → ∃ v, data_vec st !! i = Some (Some v))
    as Hocc by (by intros i ?%Hiff).
  destruct (std_erase_if_spec p h (elems (alive_vec st)) (data_vec st)
              (data_vec st) a Hnd) as (d' & Hrun & Hlen & Hgone & Hkept);
    [done..|].
  destruct (std_erase_if_spec p (λ v (acc : list T), acc ++ [v])
              (elems (alive_vec st)) (data_vec st) (data_vec st) [] Hnd)
    as (d2 & Hrun2 & Hlen2 & Hgone2 & Hkept2); [done..|].
  assert (d2 = d') as ->.
  { apply list_eq. intros i.
    destruct (decide (i ∈ elems (alive_vec st)
                      ∧ holds_at p (data_vec st) i)) as [[? ?]|Hno].
    - by rewrite Hgone, Hgone2.
    - by rewrite Hkept, Hkept2. }
  set (st' := SparseArray d'
    (Vec (filter (λ i, ¬ holds_at p (data_vec st) i) (elems (alive_vec st)))
       (cap (alive_vec st)))).
  exists st'. split_and!.
  - unfold erase_if. by rewrite Hrun.
  - done.
  - intros i Hi Hholds. by apply Hgone.
  - done.
  - unfold size, vec_size, st'. simpl.
    rewrite <-(Permutation_length
      (filter_app_complement (λ i, Is_true (holds_at p (data_vec st) i))
         (elems (alive_vec st)))).
    rewrite length_app. lia.
  - done.
  - apply live_inv_alt. split; [by apply NoDup_filter|].
    intros i. unfold st', occupied. simpl. rewrite list_elem_of_filter. split.
    + intros [Hno Hi]. rewrite Hkept by (by intros [? ?]). by apply Hocc.
    + intros [v Hv].
      destruct (decide (i ∈ elems (alive_vec st)
                        ∧ holds_at p (data_vec st) i)) as [[? ?]|Hno].
      * rewrite Hgone in Hv by done. done.
      * rewrite Hkept in Hv by done.
        assert (i ∈ elems (alive_vec st)) by (apply Hiff; by exists v).
        split; [|done]. intros ?. by apply Hno.
  - destruct (foldl_called_on_log (elems (alive_vec st)) (data_vec st) [] Hocc)
      as (log & Hfold & Hlog).
    exists log. split; [|done]. unfold erase_if. by rewrite Hrun2, Hfold.
Qed.

(** C9 ([for_each]).  On a store whose [alive_vec] elements are occupied
    slots, [for_each(f)] is defined and calls the visitor once per element
    of [alive_vec], in that order, with that index; without duplicates the
    payload passed is the one the slot held when the call began.  The
    order is the order of insertion into [alive_vec], not the order of the
    slots: after [emplace_at(3, v)] and [emplace_at(1, w)] the calls are
    [(v, 3)] and then [(w, 1)]. *)
Theorem for_each_visits_alive_in_order {A} :
  (∀ st (f : T → nat → A → T * A) (a : A),
     (∀ i, i ∈ elems (alive_vec st) → occupied st i) →
     ∃ st' a' log,
       for_each (traced f) st (a, []) = Some (st', (a', log))
       ∧ for_each f st a = Some (st', a')
       ∧ log.*2 = elems (alive_vec st)
       ∧ (NoDup (elems (alive_vec st)) →
          Forall2 (λ i c, c.2 = i ∧ data_vec st !! i = Some (Some c.1))
            (elems (alive_vec st)) log)
       ∧ alive_vec st' = alive_vec st
       ∧ ∀ i, occupied st' i ↔ occupied st i)
  ∧ (∀ v w (f : T → nat → A → T * A) (a : A),
     ∃ st st' a',
       run growth [EmplaceAt 3 v; EmplaceAt 1 w] (with_size 4) = Some st
       ∧ for_each (traced f) st (a, []) = Some (st', (a', [(v, 3); (w, 1)]))).
Proof.
  assert (∀ st (f : T → nat → A → T * A) (a : A),
     (∀ i, i ∈ elems (alive_vec st) → occupied st i) →
     ∃ st' a' log,
       for_each (traced f) st (a, []) = Some (st', (a', log))
       ∧ for_each f st a = Some (st', a')
       ∧ log.*2 = elems (alive_vec st)
       ∧ (NoDup (elems (alive_vec st)) →
          Forall2 (λ i c, c.2 = i ∧ data_vec st !! i = Some (Some c.1))
            (elems (alive_vec st)) log)
       ∧ alive_vec st' = alive_vec st
       ∧ ∀ i, occupied st' i ↔ occupied st i) as Hvisit.
  { intros st f a Hocc.
    destruct (for_each_loop_spec f (elems (alive_vec st)) (data_vec st) a [] Hocc)
      as (d' & a' & log & Htr & Hrun & Hidx & _ & _ & Hslots & Hpay).
    exists (SparseArray d' (alive_vec st)), a', log. unfold for_each.
    rewrite Htr, Hrun. split_and!; [done..| |done|done].
    intros Hnd. by apply Hpay. }
  split; [done|]. intros v w f a.
  set (st := SparseArray [None; Some w; None; Some v] (Vec [3; 1] 4)
         : sparse_array T).
  destruct (Hvisit st f a) as (st' & a' & log & Htr & _ & Hidx & Hpay & _).
  { intros i [->|[->|[]%elem_of_nil]%elem_of_cons]%elem_of_cons;
      [by exists v|by exists w]. }
  exists st, st', a'. split; [done|]. rewrite Htr. do 3 f_equal.
  specialize (Hpay ltac:(by apply (bool_decide_unpack _))).
  simpl in Hpay.
  apply Forall2_cons_inv_l in Hpay as ([v1 i1] & log1 & [? [= ->]] & Hpay & ->).
  apply Forall2_cons_inv_l in Hpay as ([v2 i2] & log2 & [? [= ->]] & Hpay & ->).
  apply Forall2_nil_inv_l in Hpay as ->. by simplify_eq/=.
Qed.

(** C2 ([erase_at] on a duplicated index).  With [alive_vec] equal to
    [0, 1, 0, 1] (four in-capacity [emplace_at] calls), [erase_at(0)]
    removes both occurrences of 0 and leaves [1, 1]; with [alive_vec]
    equal to [0, 0] the second erase of the walk is at the end of the
    vector, which is undefined.  The walk does not stop after its first
    erase. *)
Theorem erase_at_duplicated_index (a b c d : T) :
  (∃ st st',
     run growth [EmplaceAt 0 a; EmplaceAt 1 b; EmplaceAt 0 c; EmplaceAt 1 d]
       (with_size 4) = Some st
     ∧ elems (alive_vec st) = [0; 1; 0; 1]
     ∧ erase_at 0 st = Some st'
     ∧ elems (alive_vec st') = [1; 1]
     ∧ occurrences 0 (elems (alive_vec st)) = 2
     ∧ occurrences 0 (elems (alive_vec st')) = 0)
  ∧ (∃ st,
     run growth [EmplaceAt 0 a; EmplaceAt 0 c] (with_size 4) = Some st
     ∧ elems (alive_vec st) = [0; 0]
     ∧ erase_at 0 st = None).
Proof.
  split.
  - by exists (SparseArray [Some c; Some d; None; None] (Vec [0; 1; 0; 1] 4)),
              (SparseArray [None; Some d; None; None] (Vec [1; 1] 4)).
  - by exists (SparseArray [Some c; None; None; None] (Vec [0; 0] 4)).
Qed.
End claims.

(** * Concrete instances *)

(** The scenario of the spec's section 8, with strings as payloads. *)
Example section_8_scenario :
  ∃ st1 st2,
    run doubling [EmplaceAt 1 "a"; EmplaceAt 3 "b"] (with_size 4) = Some st1
    ∧ size st1 = 2
    ∧ next_empty_index st1 = Some 0
    ∧ erase_if (observing (λ v, bool_decide (v = "a")) (λ _ (u : unit), u)) st1 tt
      = Some (st2, tt)
    ∧ size st2 = 1
    ∧ elems (alive_vec st2) = [3]
    ∧ at_ 3 st2 = Some "b"
    ∧ size (clear st2) = 0.
Proof.
  exists (SparseArray [None; Some "a"; None; Some "b"] (Vec [1; 3] 4)),
         (SparseArray [None; None; None; Some "b"] (Vec [3] 4)).
  by split_and!.
Qed.

(** Erasing a live index and emplacing into the slot again. *)
Example erase_then_reuse :
  run doubling [EmplaceAt 1 10; EmplaceAt 3 30; EraseAt 1; EmplaceAt 1 11]
    (with_size 4)
  = Some (SparseArray [None; Some 11; None; Some 30] (Vec [3; 1] 4)).
Proof. reflexivity. Qed.

(** The walk of [erase_at(0)] over [0, 0, 1]: one 0 is erased, the other
    stays in [alive_vec] although slot 0 is emptied. *)
Example erase_at_leaves_stale_index :
  erase_at 0 (SparseArray [Some 5; Some 6] (Vec [0; 0; 1] 4))
  = Some (SparseArray [None; Some 6] (Vec [0; 1] 4)).
Proof. reflexivity. Qed.

Lemma demo_store_run :
  run doubling [EmplaceAt 3 30; EmplaceAt 1 10] (with_size 4) = Some demo_store.
Proof. reflexivity. Qed.

Lemma demo_store_occupied i : occupied demo_store i ↔ i = 1 ∨ i = 3.
Proof.
  unfold occupied, demo_store. simpl. split.
  - intros [v Hv]. destruct i as [|[|[|[|i]]]]; simplify_eq/=; auto.
  - intros [->| ->]; eauto.
Defined.

Lemma demo_store_live_inv : live_inv demo_store.
Proof.
  apply live_inv_alt. split.
  - by apply (bool_decide_unpack _).
  - intros i. rewrite demo_store_occupied. simpl.
    rewrite !elem_of_cons, elem_of_nil. tauto.
Defined.

(** C3, as the spec words it, fails after a shrink: a store built with two
    slots, resized to one and filled satisfies the liveness invariant and
    has [size() == 1] and [capacity() == 2], and [next_empty_index()] gives
    no value. *)
Lemma next_empty_index_after_shrink :
  ∃ st, emplace_at doubling 0 7 (resize 1 (with_size 2)) = Some (st, 7)
      ∧ built doubling st
      ∧ live_inv st
      ∧ data_vec st = [Some 7]
      ∧ size st = 1 ∧ capacity st = 2
      ∧ next_empty_index st = None
      ∧ ¬ (next_empty_index st = None ↔ size st = capacity st).
Proof.
  exists (SparseArray [Some 7] (Vec [0] 2)).
  split_and!; [done| | |done..|].
  - eapply (built_emplace_at _ 0 7 (resize 1 (with_size 2))); [|done].
    do 2 apply built_resize. apply built_new.
  - apply live_inv_alt. simpl. split; [apply NoDup_singleton|].
    intros i. rewrite list_elem_of_singleton. unfold occupied. simpl. split.
    + intros ->. by exists 7.
    + intros [v Hv]. by destruct i as [|[|i]].
  - intros [Hfull _]. by specialize (Hfull eq_refl).
Qed.

(** Outside the liveness invariant [erase_if] can reach a slot it has
    already emptied: with [alive_vec] equal to [0, 0] and a predicate that
    holds, the second call of the lambda reads the payload of an empty
    slot. *)
Example erase_if_on_duplicated_index :
  erase_if (observing (λ _ : nat, true) (λ _ (u : unit), u))
    (SparseArray [Some 5; None] (Vec [0; 0] 2)) tt = None.
Proof. reflexivity. Qed.

(** ** Instances of the theorems above *)

Lemma liveness_invariant_after_each_call_witness :
  (NoDup (target <$> [EmplaceAt 1 10; EmplaceAt 3 30; EraseAt 1; EmplaceAt 1 11])
   ∨ no_double_emplace []
       [EmplaceAt 1 10; EmplaceAt 3 30; EraseAt 1; EmplaceAt 1 11])
  ∧ Forall (λ c : call, target c < 4)
      [EmplaceAt 1 10; EmplaceAt 3 30; EraseAt 1; EmplaceAt 1 11]
  ∧ ∃ st, run doubling [EmplaceAt 1 10; EmplaceAt 3 30; EraseAt 1] (with_size 4)
          = Some st
        ∧ NoDup (elems (alive_vec st))
        ∧ (∀ i, i ∈ elems (alive_vec st) → occupied st i)
        ∧ (∀ i, occupied st i → occurrences i (elems (alive_vec st)) = 1)
        ∧ size st = count_occupied st.
Proof.
  assert (no_double_emplace []
            [EmplaceAt 1 10; EmplaceAt 3 30; EraseAt 1; EmplaceAt 1 11])
    as Hfresh.
  { simpl. split_and!; try exact I; by apply (bool_decide_unpack _). }
  assert (Forall (λ c : call, target c < 4)
            [EmplaceAt 1 10; EmplaceAt 3 30; EraseAt 1; EmplaceAt 1 11])
    as Hlt by (repeat constructor; simpl; lia).
  split; [right; exact Hfresh|]. split; [exact Hlt|].
  exact (liveness_invariant_after_each_call doubling 4 _ 3
           (or_intror Hfresh) Hlt).
Defined.

Lemma emplace_at_appends_unconditionally_witness :
  1 < length (data_vec demo_store)
  ∧ ∃ st', emplace_at doubling 1 11 demo_store = Some (st', 11)
         ∧ elems (alive_vec st') = [3; 1; 1]
         ∧ at_ 1 st' = Some 11
         ∧ emplace_at_lifetime 1 11 demo_store
           = Some [Opt.Destroyed 10; Opt.Constructed 11].
Proof.
  assert (1 < length (data_vec demo_store)) as Hlt by (simpl; lia).
  split; [exact Hlt|].
  destruct (emplace_at_appends_unconditionally doubling demo_store 1 11 Hlt)
    as (st' & Hrun & Helems & _ & Hat & Hlife & _).
  exists st'. split; [exact Hrun|]. split; [exact Helems|].
  split; [exact Hat|exact Hlife].
Defined.

Lemma emplace_at_round_trip_witness :
  2 < length (data_vec demo_store)
  ∧ (2 ∉ elems (alive_vec demo_store))
  ∧ ∃ st1 st2 st3,
      emplace_at doubling 2 20 demo_store = Some (st1, 20)
      ∧ erase_at 2 st1 = Some st2
      ∧ emplace_at doubling 2 21 st2 = Some (st3, 21)
      ∧ at_ 2 st3 = Some 21.
Proof.
  assert (2 < length (data_vec demo_store)) as Hlt by (simpl; lia).
  assert (2 ∉ elems (alive_vec demo_store)) as Hfresh.
  { simpl. intros [?|[?|[]%elem_of_nil]%elem_of_cons]%elem_of_cons; lia. }
  split; [exact Hlt|]. split; [exact Hfresh|].
  destruct (emplace_at_round_trip doubling demo_store 2 20 21 Hlt)
    as (_ & _ & Hchain).
  destruct (Hchain Hfresh) as (st1 & st2 & st3 & H1 & H2 & _ & H3 & H4).
  exists st1, st2, st3. split; [exact H1|]. split; [exact H2|].
  split; [exact H3|exact H4].
Defined.

Lemma clear_empties_the_store_witness :
  0 < length (data_vec demo_store)
  ∧ 0 < capacity demo_store
  ∧ size (clear demo_store) = 0
  ∧ next_empty_index (clear demo_store) = Some 0.
Proof.
  assert (0 < length (data_vec demo_store)) as Hslots by (simpl; lia).
  assert (0 < capacity demo_store) as Hcap by (vm_compute; lia).
  split; [exact Hslots|]. split; [exact Hcap|].
  destruct (clear_empties_the_store doubling demo_store)
    as (_ & _ & _ & Hsize & Hnext & _).
  split; [exact Hsize|exact (Hnext Hslots Hcap)].
Defined.

Lemma untargeted_slots_are_stable_witness :
  1 ≠ 3
  ∧ ∃ st', erase_at 1 demo_store = Some st'
         ∧ data_vec st' !! 3 = data_vec demo_store !! 3
         ∧ occurrences 3 (elems (alive_vec st'))
           = occurrences 3 (elems (alive_vec demo_store)).
Proof.
  assert (1 ≠ 3) as Hne by lia. split; [exact Hne|].
  destruct (untargeted_slots_are_stable doubling demo_store 1 3 0 Hne)
    as (_ & Herase & _).
  exists (SparseArray [None; None; None; Some 30] (Vec [3] 4)).
  split; [reflexivity|]. exact (Herase _ eq_refl).
Defined.

Lemma next_empty_index_lowest_vacant_witness :
  live_inv demo_store
  ∧ capacity demo_store = length (data_vec demo_store)
  ∧ size demo_store ≠ capacity demo_store
  ∧ ∃ i, next_empty_index demo_store = Some i
       ∧ vacant demo_store i ∧ ∀ j, j < i → occupied demo_store j.
Proof.
  assert (capacity demo_store = length (data_vec demo_store)) as Hcap
    by reflexivity.
  assert (size demo_store ≠ capacity demo_store) as Hne by (vm_compute; lia).
  split; [exact demo_store_live_inv|]. split; [exact Hcap|]. split; [exact Hne|].
  destruct (next_empty_index_lowest_vacant demo_store) as (_ & _ & _ & Hinv).
  destruct (Hinv demo_store_live_inv Hcap) as [_ Hlowest].
  exact (Hlowest Hne).
Defined.

Lemma erase_if_removes_exactly_the_matches_witness :
  live_inv demo_store
  ∧ ∃ st', erase_if (observing (λ v, bool_decide (v = 10)) (λ _ n, S n))
             demo_store 0 = Some (st', 2)
         ∧ elems (alive_vec st') = [3]
         ∧ size st' + 1 = size demo_store
         ∧ live_inv st'.
Proof.
  split; [exact demo_store_live_inv|].
  destruct (erase_if_removes_exactly_the_matches demo_store
              (λ v, bool_decide (v = 10)) (λ _ n, S n) 0 demo_store_live_inv)
    as (st' & Hrun & Helems & _ & _ & Hsize & _ & Hinv & _).
  exists st'. split; [exact Hrun|]. split; [exact Helems|].
  split; [exact Hsize|exact Hinv].
Defined.

Lemma for_each_visits_alive_in_order_witness :
  (∀ i, i ∈ elems (alive_vec demo_store) → occupied demo_store i)
  ∧ NoDup (elems (alive_vec demo_store))
  ∧ ∃ st' a' log,
      for_each (traced (λ v i (n : nat), (v + 1, n + v))) demo_store (0, [])
      = Some (st', (a', log))
      ∧ log.*2 = [3; 1]
      ∧ Forall2 (λ i c, c.2 = i ∧ data_vec demo_store !! i = Some (Some c.1))
          [3; 1] log.
Proof.
  destruct demo_store_live_inv as (Hnd & Hocc & _).
  split; [exact Hocc|]. split; [exact Hnd|].
  destruct (proj1 (for_each_visits_alive_in_order doubling (A:=nat)) demo_store
              (λ v i (n : nat), (v + 1, n + v)) 0 Hocc)
    as (st' & a' & log & Hrun & _ & Hidx & Hpay & _).
  exists st', a', log. split; [exact Hrun|]. split; [exact Hidx|exact (Hpay Hnd)].
Defined.

(** * Further properties of the store *)

Section more_facts.
Context {T : Type}.
Variable growth : nat → nat.
Implicit Types (st : sparse_array T) (d : list (option T)) (v : T).
Implicit Types (i j k index n : nat) (l : list nat).

(** ** [first_if] *)

(** The walk of [first_if] over occupied slots. *)
Lemma first_if_loop_spec {A} (p : T → bool) (h : T → A → A) l d a :
  (∀ i, i ∈ l → ∃ v, d !! i = Some (Some v)) →
  ∃ r a', first_if_loop (observing p h) l d a = Some (r, a')
    ∧ match r with
      | Some (i, v) =>
          ∃ l1 l2, l = l1 ++ i :: l2
            ∧ (∀ j, j ∈ l1 → ¬ holds_at p d j)
            ∧ d !! i = Some (Some v) ∧ p v = true
            ∧ a' = foldl (called_on h d) a (l1 ++ [i])
      | None =>
          (∀ j, j ∈ l → ¬ holds_at p d j) ∧ a' = foldl (called_on h d) a l
      end.
Proof.
  revert a. induction l as [|index l IH]; intros a Hocc.
  { exists None, a. split; [done|]. split; [|done]. by intros j ?%elem_of_nil. }
  destruct (Hocc index) as [v Hv]; [left|].
  assert (called_on h d a index = h v a) as Hh by (unfold called_on; by rewrite Hv).
  simpl. rewrite Hv. simpl. destruct (p v) eqn:Hpv.
  - exists (Some (index, v)), (h v a). split; [done|].
    exists [], l. split_and!; [done|by intros j ?%elem_of_nil|done..|].
    simpl. by rewrite Hh.
  - destruct (IH (h v a)) as (r & a' & Hrun & Hr); [by intros; apply Hocc; right|].
    assert (¬ holds_at p d index) as Hno
      by (unfold holds_at; rewrite Hv, Hpv; by intros ?).
    exists r, a'. split; [done|]. destruct r as [[i w]|].
    + destruct Hr as (l1 & l2 & -> & Hl1 & Hi & Hpw & ->).
      exists (index :: l1), l2. split_and!; [done| |done..|].
      * intros j [->|Hj]%elem_of_cons; [done|by apply Hl1].
      * simpl. by rewrite Hh.
    + destruct Hr as [Hall ->]. split.
      * intros j [->|Hj]%elem_of_cons; [done|by apply Hall].
      * simpl. by rewrite Hh.
Qed.

(** X1 ([first_if]).  On a store whose [alive_vec] elements are occupied
    slots, [first_if(p)] is defined.  It returns the slot and payload of the
    first element of [alive_vec], in order, whose payload satisfies [p], and
    no value exactly when no element's payload does; the predicate is called
    on the elements before the match and on the match, and on nothing after
    it. *)
Theorem first_if_returns_first_match {A} st (p : T → bool) (h : T → A → A) a :
  (∀ i, i ∈ elems (alive_vec st) → occupied st i) →
  ∃ r a', first_if (observing p h) st a = Some (r, a')
    ∧ match r with
      | Some (i, v) =>
          ∃ l1 l2, elems (alive_vec st) = l1 ++ i :: l2
            ∧ (∀ j, j ∈ l1 → ¬ holds_at p (data_vec st) j)
            ∧ at_ i st = Some v ∧ p v = true
            ∧ a' = foldl (called_on h (data_vec st)) a (l1 ++ [i])
      | None =>
          (∀ j, j ∈ elems (alive_vec st) → ¬ holds_at p (data_vec st) j)
          ∧ a' = foldl (called_on h (data_vec st)) a (elems (alive_vec st))
      end.
Proof.
  intros Hocc.
  destruct (first_if_loop_spec p h (elems (alive_vec st)) (data_vec st) a Hocc)
    as (r & a' & Hrun & Hr).
  exists r, a'. split; [done|]. destruct r as [[i v]|]; [|done].
  destruct Hr as (l1 & l2 & Hsplit & Hl1 & Hi & Hpv & Ha').
  exists l1, l2. split_and!; [done..| |done|done].
  unfold at_. by rewrite Hi.
Qed.

(** ** [erase_if], once more *)

(** What [erase_if] yields on a store that satisfies the invariant, for a
    predicate that observes with [h]. *)
Lemma erase_if_observing_result {A} st (p : T → bool) (h : T → A → A) a :
  live_inv st →
  ∃ d', erase_if (observing p h) st a
        = Some (SparseArray d'
                  (Vec (filter (λ i, ¬ holds_at p (data_vec st) i)
                          (elems (alive_vec st)))
                     (cap (alive_vec st))),
                foldl (called_on h (data_vec st)) a (elems (alive_vec st)))
      ∧ length d' = length (data_vec st)
      ∧ (∀ j, j ∈ elems (alive_vec st) → holds_at p (data_vec st) j →
           d' !! j = Some None)
      ∧ (∀ j, ¬ (j ∈ elems (alive_vec st) ∧ holds_at p (data_vec st) j) →
           d' !! j = data_vec st !! j).
Proof.
  intros [Hnd Hiff]%live_inv_alt.
  destruct (std_erase_if_spec p h (elems (alive_vec st)) (data_vec st)
              (data_vec st) a Hnd) as (d' & Hrun & Hrest);
    [done|by intros i ?%Hiff|].
  exists d'. split; [|done]. unfold erase_if. by rewrite Hrun.
Qed.

(** X2 ([erase_if] then [first_if]).  After [erase_if(p)] on a store that
    satisfies the liveness invariant, [first_if(p)] is defined, finds
    nothing, and has called the predicate on every remaining live payload. *)
Theorem first_if_after_erase_if {A B} st (p : T → bool)
    (h : T → A → A) a (h2 : T → B → B) b :
  live_inv st →
  ∃ st' a', erase_if (observing p h) st a = Some (st', a')
    ∧ first_if (observing p h2) st' b
      = Some (None, foldl (called_on h2 (data_vec st')) b (elems (alive_vec st'))).
Proof.
  intros Hinv. pose proof Hinv as [Hnd Hiff]%live_inv_alt.
  destruct (erase_if_observing_result st p h a Hinv)
    as (d' & Hrun & _ & _ & Hkept).
  eexists _, _. split; [exact Hrun|]. unfold first_if. simpl.
  assert (∀ i, i ∈ filter (λ i, ¬ holds_at p (data_vec st) i)
                     (elems (alive_vec st)) →
               d' !! i = data_vec st !! i ∧ ¬ holds_at p (data_vec st) i) as Hsame.
  { intros i [Hno Hi]%list_elem_of_filter. split; [|done].
    apply Hkept. by intros [_ ?]. }
  destruct (first_if_loop_spec p h2
              (filter (λ i, ¬ holds_at p (data_vec st) i) (elems (alive_vec st)))
              d' b) as (r & b' & -> & Hr).
  { intros i Hi. destruct (Hsame i Hi) as [-> _].
    apply Hiff. by apply list_elem_of_filter in Hi as [_ ?]. }
  destruct r as [[i v]|]; [|by destruct Hr as [_ ->]].
  destruct Hr as (l1 & l2 & Hsplit & _ & Hi & Hpv & _). exfalso.
  destruct (Hsame i) as [Heq Hno];
    [rewrite Hsplit; apply elem_of_app; right; left|].
  apply Hno. unfold holds_at. by rewrite <-Heq, Hi, Hpv.
Qed.

(** The pass of [std::erase_if] for an arbitrary callable, whose verdict
    may depend on its state. *)
Lemma std_erase_if_any {A} (f : T → A → bool * A) l d a :
  NoDup l →
  (∀ i, i ∈ l → ∃ v, d !! i = Some (Some v)) →
  ∃ kept d' a', std_erase_if f l d a = Some (kept, d', a')
    ∧ kept `sublist_of` l
    ∧ length d' = length d
    ∧ (∀ j, j ∈ kept → d' !! j = d !! j)
    ∧ (∀ j, j ∈ l → j ∉ kept → d' !! j = Some None)
    ∧ (∀ j, j ∉ l → d' !! j = d !! j).
Proof.
  revert d a. induction l as [|index l IH]; intros d a Hnd Hocc.
  { exists [], d, a. split_and!; try done; by intros j ?%elem_of_nil. }
  apply NoDup_cons in Hnd as [Hfresh Hnd].
  destruct (Hocc index) as [v Hv]; [left|].
  simpl. unfold erase_if_lambda. rewrite Hv. simpl.
  destruct (f v a) as [[] a1]; simpl.
  - rewrite reset_empty.
    destruct (IH (<[index := None]> d) a1) as
      (kept & d' & a' & -> & Hsub & Hlen & Hkept & Hgone & Hout); [done| |].
    { intros i Hi. rewrite list_lookup_insert_ne by (by intros ->).
      apply Hocc. by right. }
    simpl. exists kept, d', a'.
    assert (∀ j, j ∈ kept → j ∈ l) as Hin by (by apply sublist_subseteq).
    split_and!; [done|by constructor|by rewrite Hlen, length_insert| | |].
    + intros j Hj. rewrite Hkept by done.
      apply list_lookup_insert_ne. intros ->. by apply Hfresh, Hin.
    + intros j [->|Hj]%elem_of_cons Hno; [|by apply Hgone].
      rewrite Hout by done. apply list_lookup_insert_eq. by eapply lookup_lt_Some.
    + intros j [Hne Hj]%not_elem_of_cons. rewrite Hout by done.
      by apply list_lookup_insert_ne.
  - destruct (IH d a1) as
      (kept & d' & a' & -> & Hsub & Hlen & Hkept & Hgone & Hout);
      [done|by intros; apply Hocc; right|].
    simpl. exists (index :: kept), d', a'.
    split_and!; [done|by constructor|done| | |].
    + intros j [->|Hj]%elem_of_cons; [by apply Hout|by apply Hkept].
    + intros j [->|Hj]%elem_of_cons [Hne Hno]%not_elem_of_cons;
        [done|by apply Hgone].
    + intros j [Hne Hj]%not_elem_of_cons. by apply Hout.
Qed.

(** The store that a pass leaves satisfies the invariant. *)
Lemma live_inv_after_pass st kept d' c :
  live_inv st →
  kept `sublist_of` elems (alive_vec st) →
  (∀ j, j ∈ kept → d' !! j = data_vec st !! j) →
  (∀ j, j ∈ elems (alive_vec st) → j ∉ kept → d' !! j = Some None) →
  (∀ j, j ∉ elems (alive_vec st) → d' !! j = data_vec st !! j) →
  live_inv (SparseArray d' (Vec kept c)).
Proof.
  intros [Hnd Hiff]%live_inv_alt Hsub Hkept Hgone Hout.
  assert (∀ j, j ∈ kept → j ∈ elems (alive_vec st)) as Hin
    by (by apply sublist_subseteq).
  apply live_inv_alt. simpl. split; [by eapply sublist_NoDup|].
  intros i. unfold occupied. simpl. split.
  - intros Hi. rewrite Hkept by done. by apply Hiff, Hin.
  - intros [v Hv]. destruct (decide (i ∈ elems (alive_vec st))) as [Hl|Hl].
    + destruct (decide (i ∈ kept)); [done|]. by rewrite Hgone in Hv.
    + rewrite Hout in Hv by done. destruct Hl. apply Hiff. by exists v.
Qed.

Lemma live_inv_erase_if {A} st (f : T → A → bool * A) a st' a' :
  live_inv st → erase_if f st a = Some (st', a') → live_inv st'.
Proof.
  intros Hinv Hrun. pose proof Hinv as [Hnd Hiff]%live_inv_alt.
  destruct (std_erase_if_any f (elems (alive_vec st)) (data_vec st) a Hnd)
    as (kept & d' & a1 & Hpass & Hsub & _ & Hkept & Hgone & Hout);
    [by intros i ?%Hiff|].
  unfold erase_if in Hrun. rewrite Hpass in Hrun. simplify_eq/=.
  by apply (live_inv_after_pass st).
Qed.

(** X3 ([erase_if] with any callable).  On a store that satisfies the
    liveness invariant [erase_if(f)] is defined for every callable, also one
    whose verdict depends on its own state.  The invariant holds afterwards,
    [alive_vec] is a subsequence of what it was, the slot count and
    [capacity()] are unchanged, the slots of the removed indices are empty
    and every other slot is as before. *)
Theorem erase_if_any_callable {A} st (f : T → A → bool * A) a :
  live_inv st →
  ∃ st' a', erase_if f st a = Some (st', a')
    ∧ live_inv st'
    ∧ elems (alive_vec st') `sublist_of` elems (alive_vec st)
    ∧ length (data_vec st') = length (data_vec st)
    ∧ capacity st' = capacity st
    ∧ (∀ j, j ∈ elems (alive_vec st) → j ∉ elems (alive_vec st') → vacant st' j)
    ∧ (∀ j, (j ∈ elems (alive_vec st) → j ∈ elems (alive_vec st')) →
         data_vec st' !! j = data_vec st !! j).
Proof.
  intros Hinv. pose proof Hinv as [Hnd Hiff]%live_inv_alt.
  destruct (std_erase_if_any f (elems (alive_vec st)) (data_vec st) a Hnd)
    as (kept & d' & a' & Hrun & Hsub & Hlen & Hkept & Hgone & Hout);
    [by intros i ?%Hiff|].
  exists (SparseArray d' (Vec kept (cap (alive_vec st)))), a'.
  unfold erase_if. rewrite Hrun. simpl.
  split_and!; [done|by apply (live_inv_after_pass st)|done|done|done
              |by intros; apply Hgone|].
  intros j Hj. destruct (decide (j ∈ elems (alive_vec st))) as [Hl|Hl].
  - apply Hkept. by apply Hj.
  - by apply Hout.
Qed.

(** X4 ([erase_if] with a predicate that always holds).  On a store that
    satisfies the liveness invariant, [erase_if] with the constant-true
    predicate leaves exactly the store that [clear()] leaves. *)
Theorem erase_if_true_is_clear {A} st (h : T → A → A) a :
  live_inv st →
  ∃ a', erase_if (observing (λ _, true) h) st a = Some (clear st, a').
Proof.
  intros Hinv. pose proof Hinv as [Hnd Hiff]%live_inv_alt.
  destruct (erase_if_observing_result st (λ _, true) h a Hinv)
    as (d' & Hrun & Hlen & Hgone & Hkept).
  assert (∀ i, i ∈ elems (alive_vec st) →
               Is_true (holds_at (λ _ : T, true) (data_vec st) i)) as Hall.
  { intros i [v Hv]%Hiff. unfold holds_at. by rewrite Hv. }
  eexists. rewrite Hrun. do 2 f_equal. unfold clear, vec_clear. f_equal.
  - rewrite fmap_reset. apply list_eq. intros j.
    destruct (decide (j ∈ elems (alive_vec st))) as [Hl|Hl].
    + rewrite Hgone by auto. symmetry. apply lookup_replicate_2.
      destruct (proj1 (Hiff j) Hl) as [v Hv]. by eapply lookup_lt_Some.
    + rewrite Hkept by (by intros [? _]).
      destruct (data_vec st !! j) as [[v|]|] eqn:Hj.
      * destruct Hl. apply Hiff. by exists v.
      * symmetry. apply lookup_replicate_2. by eapply lookup_lt_Some.
      * symmetry. apply lookup_replicate_None. by apply lookup_ge_None.
  - f_equal. revert Hall. generalize (elems (alive_vec st)).
    induction l as [|i l IH]; intros Hall; [done|].
    rewrite filter_cons_False.
    + apply IH. intros j Hj. apply Hall. by right.
    + intros Hno. apply Hno, Hall. left.
Qed.

(** ** [resize] *)

Lemma lookup_resize n st i :
  data_vec (resize n st) !! i
  = if decide (i < n) then
      match data_vec st !! i with Some o => Some o | None => Some None end
    else None.
Proof.
  unfold resize. simpl. case_decide as Hi.
  - destruct (decide (i < length (data_vec st))) as [Hlt|Hge].
    + rewrite lookup_app_l by (rewrite length_take; lia).
      rewrite lookup_take_lt by done.
      by destruct (lookup_lt_is_Some_2 _ _ Hlt) as [o ->].
    + rewrite take_ge by lia. rewrite lookup_app_r by lia.
      rewrite (lookup_ge_None_2 (data_vec st)) by lia.
      apply lookup_replicate_2. lia.
  - apply lookup_ge_None. rewrite length_app, length_take, length_replicate. lia.
Qed.

Lemma occupied_resize st n i :
  occupied (resize n st) i ↔ occupied st i ∧ i < n.
Proof.
  unfold occupied. rewrite lookup_resize. case_decide.
  - destruct (data_vec st !! i) as [[v|]|]; split;
      try (by intros [w ?]); try (by intros [[w ?] ?]).
    intros [w ?]. split; [by exists w|done].
  - split; [by intros [w ?]|]. intros [_ ?]. lia.
Qed.

Lemma live_inv_resize st n :
  live_inv st → (∀ i, i ∈ elems (alive_vec st) → i < n) → live_inv (resize n st).
Proof.
  intros [Hnd Hiff]%live_inv_alt Hbelow. apply live_inv_alt. simpl.
  split; [done|]. intros i. rewrite occupied_resize, <-Hiff.
  split; [|by intros [? _]]. intros Hi. split; [done|by apply Hbelow].
Qed.

(** X5 ([resize] and the invariant).  For every store, [resize(n)] gives
    exactly [n] slots, leaves every slot below both [n] and the old slot
    count exactly as it was, payload included, leaves the new slots empty,
    never lowers [capacity()] and never touches [alive_vec].  On a store
    that satisfies the liveness invariant, the invariant holds after
    [resize(n)] exactly when every live index is below [n]: a shrink that
    cuts off a live index leaves that index in [alive_vec] with no slot
    behind it. *)
Theorem resize_keeps_invariant_iff st n :
  length (data_vec (resize n st)) = n
  ∧ (∀ i, i < n → i < length (data_vec st) →
       data_vec (resize n st) !! i = data_vec st !! i)
  ∧ (∀ i v, i < n → at_ i st = Some v → at_ i (resize n st) = Some v)
  ∧ (∀ i, length (data_vec st) ≤ i → i < n → vacant (resize n st) i)
  ∧ capacity (resize n st) = capacity st `max` n
  ∧ alive_vec (resize n st)
    = Vec (elems (alive_vec st)) (capacity st `max` n)
  ∧ (live_inv st →
     (live_inv (resize n st) ↔ ∀ i, i ∈ elems (alive_vec st) → i < n)).
Proof.
  assert (∀ i, i < n → i < length (data_vec st) →
            data_vec (resize n st) !! i = data_vec st !! i) as Hkeep.
  { intros i Hn Hlt. rewrite lookup_resize, decide_True by done.
    by destruct (lookup_lt_is_Some_2 _ _ Hlt) as [o ->]. }
  assert (capacity (resize n st) = capacity st `max` n) as Hcap.
  { unfold capacity, vec_capacity, resize. simpl. case_decide; lia. }
  split_and!; [|done| | |done| |].
  - unfold resize. simpl. rewrite length_app, length_take, length_replicate. lia.
  - intros i v Hn Hat. unfold at_ in *.
    destruct (data_vec st !! i) as [o|] eqn:Hi; [|done].
    rewrite Hkeep, Hi; [done..|]. by eapply lookup_lt_Some.
  - intros i Hge Hlt. unfold vacant. rewrite lookup_resize, decide_True by done.
    by rewrite (lookup_ge_None_2 (data_vec st)).
  - unfold capacity, vec_capacity in Hcap. unfold resize, vec_reserve in *.
    simpl in *. by rewrite Hcap.
  - intros Hinv. split; [|by apply live_inv_resize].
    intros [_ Hiff']%live_inv_alt i Hi.
    by apply Hiff', occupied_resize in Hi as [_ ?].
Qed.

(** ** Stores built without misuse *)

Lemma live_inv_new : live_inv (new : sparse_array T).
Proof.
  apply live_inv_alt. split; [constructor|]. intros i.
  split; [by intros ?%elem_of_nil|by intros [v ?]].
Qed.

Lemma live_inv_for_each {A} st (f : T → nat → A → T * A) a st' a' :
  live_inv st → for_each f st a = Some (st', a') → live_inv st'.
Proof.
  intros [Hnd Hiff]%live_inv_alt Hrun.
  destruct (for_each_loop_spec f (elems (alive_vec st)) (data_vec st) a [])
    as (d' & a1 & log & _ & Hloop & _ & _ & _ & Hslots & _);
    [by intros i ?%Hiff|].
  unfold for_each in Hrun. rewrite Hloop in Hrun. simplify_eq/=.
  apply live_inv_alt. simpl. split; [done|]. intros i.
  rewrite Hiff. unfold occupied. simpl. by rewrite Hslots.
Qed.

Lemma live_inv_erase_at_Some st index st' :
  live_inv st → erase_at index st = Some st' → live_inv st'.
Proof.
  intros Hinv Hrun. pose proof Hrun as (Hlt & _)%erase_at_inv.
  rewrite erase_at_Some in Hrun; [|done|apply occurrences_NoDup, Hinv].
  simplify_eq. by apply live_inv_erase_at.
Qed.

Lemma live_inv_clear st : live_inv (clear st).
Proof.
  apply live_inv_alt. simpl. split; [constructor|]. intros i.
  split; [by intros ?%elem_of_nil|]. intros [v Hv]. simpl in Hv.
  rewrite fmap_reset in Hv. by apply lookup_replicate in Hv as [? _].
Qed.

Lemma tidy_built st : tidy growth st → built growth st.
Proof.
  induction 1; [constructor|by constructor|by econstructor..|by constructor].
Qed.

Lemma tidy_live_inv st : tidy growth st → live_inv st.
Proof.
  induction 1 as [|n st _ IH Hbelow|index v st st' r _ IH Hvac Hcall
                  |index st st' _ IH Hcall|A f st st' a a' _ IH Hcall
                  |A f st st' a a' _ IH Hcall|st _ IH].
  - apply live_inv_new.
  - by apply live_inv_resize.
  - apply emplace_at_inv in Hcall as (_ & _ & ->). by apply live_inv_emplace_at.
  - by eapply live_inv_erase_at_Some.
  - by eapply live_inv_erase_if.
  - by eapply live_inv_for_each.
  - apply live_inv_clear.
Qed.


(** X6 (the invariant over every member function).  A store built through
    the member functions, with no [emplace_at] into an occupied slot and no
    [resize] below a live index, satisfies the liveness invariant, and
    [size()] is the number of occupied slots, which is at most the slot
    count, which is at most [capacity()]. *)
Theorem tidy_store_invariant st :
  tidy growth st →
  live_inv st
  ∧ size st = count_occupied st
  ∧ size st ≤ length (data_vec st)
  ∧ length (data_vec st) ≤ capacity st.
Proof.
  intros Htidy. pose proof (tidy_live_inv st Htidy) as Hinv.
  pose proof (size_count_occupied st Hinv) as Hsize.
  split_and!; [done..| |].
  - rewrite Hsize. apply length_filter.
  - by apply (built_slots_le_capacity growth), tidy_built.
Qed.


(** ** Filling and freeing slots *)

(** X8 (insert into the first free slot).  On a store built without misuse,
    when [next_empty_index()] returns [i], [emplace_at(i, v)] is defined and
    the store stays one built without misuse; [size()] grows by one,
    [alive_vec] is not reallocated ([capacity()] is unchanged), every other
    slot keeps its payload, and a following [next_empty_index()] can only
    return a higher index. *)
Theorem emplace_at_next_empty_index st i v :
  tidy growth st →
  next_empty_index st = Some i →
  ∃ st', emplace_at growth i v st = Some (st', v)
    ∧ tidy growth st'
    ∧ size st' = S (size st)
    ∧ capacity st' = capacity st
    ∧ (∀ j, j ≠ i → data_vec st' !! j = data_vec st !! j)
    ∧ (∀ j, next_empty_index st' = Some j → i < j).
Proof.
  intros Htidy Hnext. pose proof (tidy_live_inv st Htidy) as Hinv.
  pose proof (size_count_occupied st Hinv) as Hsize.
  pose proof (built_slots_le_capacity growth st (tidy_built st Htidy)) as Hcap.
  assert (size st ≠ capacity st) as Hroom.
  { intros Hfull. unfold next_empty_index in Hnext. by rewrite decide_True in Hnext. }
  assert (vacant st i ∧ ∀ j, j < i → occupied st j) as [Hvac Hbelow].
  { unfold next_empty_index in Hnext. rewrite decide_False in Hnext by done.
    by apply first_null_Some in Hnext as (j & -> & ? & ?). }
  assert (i < length (data_vec st)) as Hlt by (by eapply lookup_lt_Some).
  set (st' := SparseArray (<[i := Some v]> (data_vec st))
                (vec_emplace_back growth i (alive_vec st))).
  assert (emplace_at growth i v st = Some (st', v)) as Hcall
    by (by apply emplace_at_Some).
  exists st'. split_and!; [done|by eapply tidy_emplace_at| | | |].
  - unfold size, vec_size, st'. simpl. rewrite length_app. simpl. lia.
  - pose proof (length_filter (λ o : option T, Is_true (Opt.has_value o))
                  (data_vec st)).
    unfold size, capacity, vec_size, vec_capacity, count_occupied, st' in *.
    simpl. rewrite decide_True; [done|lia].
  - intros j Hj. unfold st'. simpl. by apply list_lookup_insert_ne.
  - intros j Hj. unfold next_empty_index in Hj. case_decide; [done|].
    apply first_null_Some in Hj as (k & -> & Hk & _). simpl in *.
    destruct (decide (k = i)) as [->|Hne].
    { rewrite list_lookup_insert_eq in Hk by done. done. }
    rewrite list_lookup_insert_ne in Hk by done.
    destruct (decide (k < i)) as [Hless|]; [|lia].
    destruct (Hbelow k Hless) as [w Hw]. congruence.
Qed.


(** X10 ([erase_at] twice).  For an index within [data_vec] that occurs at
    most once in [alive_vec], a second [erase_at] of the same index is
    defined and changes nothing. *)
Theorem erase_at_twice st i :
  i < length (data_vec st) →
  occurrences i (elems (alive_vec st)) ≤ 1 →
  ∃ st', erase_at i st = Some st' ∧ erase_at i st' = Some st'.
Proof.
  intros Hlt Hocc. rewrite erase_at_Some by done. eexists. split; [done|].
  apply erase_at_absent_vacant; simpl.
  - intros [Hne _]%list_elem_of_filter. done.
  - unfold vacant. simpl. by apply list_lookup_insert_eq.
Qed.

(** X11 ([emplace_at] undone by [erase_at]).  When slot [i] is empty, [i]
    is not in [alive_vec] and [alive_vec] has room ([size() < capacity()]),
    [emplace_at(i, v)] followed by [erase_at(i)] gives back the store it
    started from. *)
Theorem emplace_at_then_erase_at st i v :
  vacant st i →
  i ∉ elems (alive_vec st) →
  size st < capacity st →
  ∃ st1, emplace_at growth i v st = Some (st1, v) ∧ erase_at i st1 = Some st.
Proof.
  intros Hvac Hfresh Hroom.
  assert (i < length (data_vec st)) as Hlt by (by eapply lookup_lt_Some).
  rewrite emplace_at_Some by done. eexists. split; [done|].
  rewrite erase_at_Some; simpl.
  - rewrite filter_app, filter_ne_absent by done.
    rewrite filter_cons_False by (by intros []). rewrite filter_nil, app_nil_r.
    rewrite list_insert_insert_eq, list_insert_id by done.
    unfold size, capacity, vec_size, vec_capacity in Hroom.
    rewrite decide_True by done. by destruct st as [d [l c]].
  - by rewrite length_insert.
  - rewrite occurrences_app, occurrences_absent, occurrences_cons_eq by done.
    unfold occurrences. simpl. lia.
Qed.

(** ** [for_each] as a map over the live payloads *)

Lemma for_each_loop_mapping (g : T → nat → T) l d :
  NoDup l →
  (∀ i, i ∈ l → ∃ v, d !! i = Some (Some v)) →
  ∃ d', for_each_loop (mapping g) l d tt = Some (d', tt)
    ∧ length d' = length d
    ∧ (∀ i v, i ∈ l → d !! i = Some (Some v) → d' !! i = Some (Some (g v i)))
    ∧ (∀ j, j ∉ l → d' !! j = d !! j).
Proof.
  revert d. induction l as [|index l IH]; intros d Hnd Hocc.
  { exists d. split_and!; try done. by intros i v ?%elem_of_nil. }
  apply NoDup_cons in Hnd as [Hfresh Hnd].
  destruct (Hocc index) as [v Hv]; [left|].
  simpl. rewrite Hv. simpl.
  destruct (IH (<[index := Some (g v index)]> d)) as (d' & -> & Hlen & Hin & Hout);
    [done| |].
  { intros i Hi. rewrite list_lookup_insert_ne by (by intros ->).
    apply Hocc. by right. }
  exists d'. split_and!; [done|by rewrite Hlen, length_insert| |].
  - intros i w [->|Hi]%elem_of_cons Hw.
    + rewrite Hout by done. simplify_eq.
      apply list_lookup_insert_eq. by eapply lookup_lt_Some.
    + apply Hin; [done|]. rewrite list_lookup_insert_ne by (by intros ->). done.
  - intros j [Hne Hj]%not_elem_of_cons. rewrite Hout by done.
    by apply list_lookup_insert_ne.
Qed.

(** X12 ([for_each] with a visitor that assigns).  On a store that satisfies
    the liveness invariant, [for_each] with a visitor that replaces the
    payload [v] of slot [i] by [g v i] is defined, leaves [alive_vec] as it
    was, puts [g v i] into every occupied slot, applied once, and leaves the
    empty slots empty. *)
Theorem for_each_maps_live_payloads st (g : T → nat → T) :
  live_inv st →
  ∃ st', for_each (mapping g) st tt = Some (st', tt)
    ∧ alive_vec st' = alive_vec st
    ∧ length (data_vec st') = length (data_vec st)
    ∧ (∀ i v, at_ i st = Some v → at_ i st' = Some (g v i))
    ∧ (∀ i, vacant st i → vacant st' i).
Proof.
  intros [Hnd Hiff]%live_inv_alt.
  destruct (for_each_loop_mapping g (elems (alive_vec st)) (data_vec st) Hnd)
    as (d' & Hrun & Hlen & Hin & Hout); [by intros i ?%Hiff|].
  exists (SparseArray d' (alive_vec st)). unfold for_each. rewrite Hrun.
  split_and!; [done..| |].
  - intros i v Hat. unfold at_ in *. simpl.
    destruct (data_vec st !! i) as [[w|]|] eqn:Hi; simplify_eq/=.
    rewrite (Hin i v); [done| |done]. apply Hiff. by exists v.
  - intros i Hvac. unfold vacant in *. simpl. rewrite Hout; [done|].
    intros [w Hw]%Hiff. congruence.
Qed.

(** ** Two [erase_if] passes *)

Lemma filter_ext_elem_of (P Q : nat → Prop) `{!∀ x, Decision (P x)}
    `{!∀ x, Decision (Q x)} l :
  (∀ x, x ∈ l → P x ↔ Q x) → filter P l = filter Q l.
Proof.
  induction l as [|x l IH]; intros Hext; [done|].
  rewrite !filter_cons. rewrite IH by (intros y Hy; apply Hext; by right).
  apply decide_ext, Hext. left.
Qed.

Lemma holds_at_orb (p q : T → bool) d i :
  holds_at (λ v, p v || q v) d i = holds_at p d i || holds_at q d i.
Proof. unfold holds_at. by destruct (d !! i) as [[v|]|]. Qed.

(** X13 (two [erase_if] passes).  On a store that satisfies the liveness
    invariant, [erase_if(p)] followed by [erase_if(q)] leaves the same store
    as one [erase_if] with the predicate "[p] or [q]". *)
Theorem erase_if_twice {A} st (p q : T → bool) (h : T → A → A) a :
  live_inv st →
  ∃ st1 st2 a1 a2 a12,
    erase_if (observing p h) st a = Some (st1, a1)
    ∧ erase_if (observing q h) st1 a1 = Some (st2, a2)
    ∧ erase_if (observing (λ v, p v || q v) h) st a = Some (st2, a12).
Proof.
  intros Hinv. pose proof Hinv as [Hnd Hiff]%live_inv_alt.
  destruct (erase_if_observing_result st p h a Hinv)
    as (d1 & Hrun1 & Hlen1 & Hgone1 & Hkept1).
  set (l := elems (alive_vec st)) in *. set (d := data_vec st) in *.
  set (st1 := SparseArray d1 (Vec (filter (λ i, ¬ holds_at p d i) l)
                                 (cap (alive_vec st)))) in *.
  assert (live_inv st1) as Hinv1 by (eapply live_inv_erase_if; [exact Hinv|exact Hrun1]).
  destruct (erase_if_observing_result st1 q h
              (foldl (called_on h d) a l) Hinv1)
    as (d2 & Hrun2 & Hlen2 & Hgone2 & Hkept2).
  destruct (erase_if_observing_result st (λ v, p v || q v) h a Hinv)
    as (d12 & Hrun12 & Hlen12 & Hgone12 & Hkept12).
  fold l d in Hrun12, Hgone12, Hkept12. simpl in Hrun2, Hgone2, Hkept2.
  eexists st1, _, _, _, _. split; [exact Hrun1|]. split; [exact Hrun2|].
  rewrite Hrun12. do 2 f_equal. f_equal.
  - apply list_eq. intros j.
    destruct (decide (j ∈ l)) as [Hj|Hj]; last first.
    { rewrite Hkept12 by (by intros [? _]).
      rewrite Hkept2 by (intros [[_ ?]%list_elem_of_filter _]; done).
      rewrite Hkept1 by (by intros [? _]). done. }
    destruct (holds_at p d j) eqn:Hp.
    { rewrite Hgone12 by (rewrite ?holds_at_orb, ?Hp; done).
      rewrite Hkept2.
      - rewrite Hgone1; [done..|by rewrite Hp].
      - intros [[Hno _]%list_elem_of_filter _]. apply Hno. by rewrite Hp. }
    assert (d1 !! j = d !! j) as Hsame
      by (apply Hkept1; intros [_ ?]; by rewrite Hp in *).
    assert (holds_at q d1 j = holds_at q d j) as Hq
      by (unfold holds_at; by rewrite Hsame).
    destruct (holds_at q d j) eqn:Hqd.
    + rewrite Hgone12 by (rewrite ?holds_at_orb, ?Hp, ?Hqd; done).
      rewrite Hgone2; [done| |by rewrite Hq].
      apply list_elem_of_filter. split; [rewrite Hp; by intros ?|done].
    + rewrite Hkept12 by (rewrite holds_at_orb, Hp, Hqd; by intros [_ ?]).
      rewrite Hkept2 by (rewrite Hq; by intros [_ ?]). done.
  - f_equal. rewrite list_filter_filter. apply filter_ext_elem_of.
    intros j Hj. rewrite holds_at_orb.
    destruct (holds_at p d j) eqn:Hp; simpl.
    { split; [intros Hno|intros [_ Hno]]; by destruct Hno. }
    assert (d1 !! j = d !! j) as Hsame
      by (apply Hkept1; intros [_ ?]; by rewrite Hp in *).
    assert (holds_at q d1 j = holds_at q d j) as ->
      by (unfold holds_at; by rewrite Hsame).
    split; [|by intros [? _]]. intros Hno. split; [done|by intros ?].
Qed.
End more_facts.

(** * byte_buffer *)

Section byte_buffer_facts.
Import ByteBuffer.
Implicit Types (bb : byte_buffer) (b : list cell) (from : list Byte.byte).

Lemma copy_back_Some from bb bb' :
  copy_back from bb = Some bb' →
  ∃ b, buffer bb = Some b
     ∧ rw_size bb + length from ≤ length b
     ∧ bb' = Build (Some (take (rw_size bb) b ++ (Some <$> from)
                            ++ drop (rw_size bb + length from) b))
               (rw_size bb + length from) (_buffer_size bb).
Proof.
  unfold copy_back. destruct (buffer bb) as [b|]; [|done]. simpl.
  case_decide; [|done]. intros [= <-]. by exists b.
Qed.

Lemma length_written b r from :
  r + length from ≤ length b →
  length (take r b ++ (Some <$> from) ++ drop (r + length from) b) = length b.
Proof.
  intros Hfit. rewrite !length_app, length_take, length_fmap, length_drop. lia.
Qed.

(** X14 (writes and reads compose).  Copying [x ++ y] in one [copy_back] is
    the same, defined or not, as copying [x] and then [y]; loading [m + n]
    bytes in one [load_front] is the same as loading [m] and then [n] and
    joining what was copied. *)
Theorem byte_buffer_calls_compose bb :
  (∀ x y, copy_back (x ++ y) bb = copy_back x bb ≫= copy_back y)
  ∧ (∀ m n, load_front (m + n) bb
            = '(g1, bb1) ← load_front m bb;
              '(g2, bb2) ← load_front n bb1;
              Some (g1 ++ g2, bb2)).
Proof.
  destruct bb as [[b|] r sz]; [|by split]. split.
  - intros x y. unfold copy_back. simpl. rewrite length_app.
    destruct (decide (r + length x ≤ length b)) as [Hx|Hx]; simpl.
    + rewrite length_written by done.
      replace (r + length x + length y) with (r + (length x + length y)) by lia.
      case_decide as Hxy; [|done]. do 3 f_equal.
      rewrite fmap_app, !(assoc_L (++)).
      rewrite take_app_length' by (rewrite length_app, length_take, length_fmap; lia).
      f_equal. rewrite drop_app_ge
        by (rewrite length_app, length_take, length_fmap; lia).
      rewrite length_app, length_take, length_fmap, drop_drop. f_equal. lia.
    + rewrite decide_False by lia. done.
  - intros m n. unfold load_front. simpl.
    destruct (decide (r + m ≤ length b)) as [Hm|Hm]; simpl.
    + replace (r + m + n) with (r + (m + n)) by lia.
      case_decide as Hmn; [|done]. simpl. do 2 f_equal.
      by rewrite <-drop_drop, take_take_drop.
    + rewrite decide_False by lia. done.
Qed.

(** X15 (a write read back from where it began).  When [copy_back] of
    [from] is defined, the cells before the cursor are untouched, and a
    [load_front] of as many bytes from the cursor position at which the
    write began copies out exactly [from] and ends in the state the write
    left. *)
Theorem copy_back_read_from_start from bb bb' :
  copy_back from bb = Some bb' →
  buffer_size bb' = buffer_size bb
  ∧ rw_size bb' = rw_size bb + length from
  ∧ (∀ b b', buffer bb = Some b → buffer bb' = Some b' →
       take (rw_size bb) b' = take (rw_size bb) b
       ∧ drop (rw_size bb') b' = drop (rw_size bb') b)
  ∧ load_front (length from) (Build (buffer bb') (rw_size bb) (_buffer_size bb'))
    = Some (Some <$> from, bb').
Proof.
  intros (b & Hb & Hfit & ->)%copy_back_Some. simpl.
  split_and!; [done..| |].
  - intros b0 b' Hb0 [= <-]. rewrite Hb in Hb0. simplify_eq. split.
    + by rewrite take_app_length' by (rewrite length_take; lia).
    + rewrite (assoc_L (++)), drop_app_length'; [done|].
      rewrite length_app, length_take, length_fmap. lia.
  - unfold load_front. simpl. rewrite length_written by done.
    rewrite decide_True by done. do 2 f_equal.
    rewrite drop_app_length' by (rewrite length_take; lia).
    by rewrite take_app_length' by (by rewrite length_fmap).
Qed.

(** Every member function keeps the cells at and after the cursor
    unwritten. *)
Lemma unwritten_ahead_reserve n bb :
  unwritten_ahead bb → unwritten_ahead (reserve n bb).
Proof.
  intros Hbb b' [= <-]. simpl. destruct (buffer bb) as [b|] eqn:Hb.
  - rewrite drop_app. apply Forall_app. split.
    + rewrite <-(take_drop (rw_size bb) b) at 1.
      destruct (decide (rw_size bb ≤ n)) as [Hle|Hgt].
      * rewrite take_app_ge by (rewrite length_take; lia).
        rewrite drop_app_ge by (rewrite length_take; lia).
        rewrite length_take. apply Forall_drop, Forall_take. by apply Hbb.
      * rewrite drop_ge; [constructor|]. rewrite length_take. lia.
    + apply Forall_drop, Forall_replicate. done.
  - apply Forall_drop, Forall_replicate. done.
Qed.

Lemma unwritten_ahead_copy_back from bb bb' :
  unwritten_ahead bb → copy_back from bb = Some bb' → unwritten_ahead bb'.
Proof.
  intros Hbb (b & Hb & Hfit & ->)%copy_back_Some b' [= <-]. simpl.
  rewrite (assoc_L (++)), drop_app_length'
    by (rewrite length_app, length_take, length_fmap; lia).
  rewrite <-drop_drop. by apply Forall_drop, Hbb.
Qed.

Lemma unwritten_ahead_load_front n bb got bb' :
  unwritten_ahead bb → load_front n bb = Some (got, bb') →
  Forall (λ c : cell, c = None) got ∧ unwritten_ahead bb'.
Proof.
  unfold load_front. intros Hbb Hload.
  destruct (buffer bb) as [b|] eqn:Hb; [|done]. simpl in Hload.
  case_decide; [|done]. simplify_eq. split.
  - by apply Forall_take, Hbb.
  - intros b' [= <-]. simpl. rewrite <-drop_drop. by apply Forall_drop, Hbb.
Qed.

Lemma run_unwritten cs bb loads bb' :
  unwritten_ahead bb → run cs bb = Some (loads, bb') →
  Forall (Forall (λ c : cell, c = None)) loads ∧ unwritten_ahead bb'.
Proof.
  revert bb loads. induction cs as [|c cs IH]; intros bb loads Hbb Hrun.
  { simpl in Hrun. simplify_eq. by split; [constructor|]. }
  destruct c as [n|from|n]; simpl in Hrun.
  - eapply IH; [|done]. by apply unwritten_ahead_reserve.
  - destruct (copy_back from bb) as [bb1|] eqn:Hcopy; [|done]. simpl in Hrun.
    eapply IH; [|done]. by eapply unwritten_ahead_copy_back.
  - destruct (load_front n bb) as [[got bb1]|] eqn:Hload; [|done]. simpl in Hrun.
    destruct (run cs bb1) as [[rest bb2]|] eqn:Hrest; [|done]. simplify_eq/=.
    destruct (unwritten_ahead_load_front n bb got bb1 Hbb Hload) as [Hgot Hbb1].
    destruct (IH bb1 rest Hbb1 Hrest) as [Hloads Hbb2].
    split; [by constructor|done].
Qed.

(** X16 (the one cursor).  [copy_back] and [load_front] advance the same
    cursor and nothing moves it back, so on a buffer used only through
    [reserve], [copy_back] and [load_front], from either constructor, no
    [load_front] ever copies out a byte that a [copy_back] wrote: every cell
    it copies is still unwritten. *)
Theorem load_front_never_sees_copy_back cs loads bb' :
  (run cs new = Some (loads, bb') ∨
   ∃ init_bytes, run cs (with_bytes init_bytes) = Some (loads, bb')) →
  Forall (Forall (λ c : cell, c = None)) loads.
Proof.
  intros [Hrun|[n Hrun]].
  - eapply run_unwritten; [|done]. by intros b.
  - eapply run_unwritten; [|done]. intros b [= <-]. simpl.
    apply Forall_replicate. done.
Qed.

(** X17 ([reserve] and the cursor).  [reserve(m)] sets [buffer_size()] to
    [m], keeps the cursor and keeps every cell below both the old and the
    new size.  Afterwards a [copy_back] of [k] bytes is defined exactly when
    the cursor plus [k] is at most [m]; after a [reserve] below the cursor
    no [copy_back] and no [load_front] is defined. *)
Theorem reserve_then_copy_back m bb from :
  buffer_size (reserve m bb) = m
  ∧ rw_size (reserve m bb) = rw_size bb
  ∧ (∀ b b' k, buffer bb = Some b → buffer (reserve m bb) = Some b' →
       k < m → k < length b → b' !! k = b !! k)
  ∧ (is_Some (copy_back from (reserve m bb)) ↔ rw_size bb + length from ≤ m)
  ∧ (m < rw_size bb → ∀ n, load_front n (reserve m bb) = None).
Proof.
  assert (∀ b', buffer (reserve m bb) = Some b' → length b' = m) as Hlen.
  { intros b' [= <-]. destruct (buffer bb) as [b|].
    - rewrite length_app, length_take, length_replicate. lia.
    - apply length_replicate. }
  split_and!; [done..| | |].
  - intros b b' k Hb [= <-] Hk Hkb. rewrite Hb.
    rewrite lookup_app_l by (rewrite length_take; lia).
    by apply lookup_take_lt.
  - unfold copy_back. destruct (buffer (reserve m bb)) as [b'|] eqn:Hb'; [|done].
    simpl. rewrite (Hlen b' eq_refl). case_decide as Hfit.
    + split; [done|by intros _; eexists].
    + split; [by intros [? ?]|by intros ?].
  - intros Hlt n. unfold load_front.
    destruct (buffer (reserve m bb)) as [b'|] eqn:Hb'; [|done].
    simpl. rewrite (Hlen b' eq_refl). rewrite decide_False; [done|]. simpl. lia.
Qed.
End byte_buffer_facts.

(** * The option combinators *)

Section option_methods_facts.
Import OptionMethods.
Context {T U V : Type}.

(** X18 (the combinators of [gef::option]).  [and_then] is associative and
    has the value constructor as unit on both sides; [transform] is
    [and_then] with a wrapped result and so composes; [map_or] gives the
    value of [transform] or else the default, and [map_or_else] is [map_or]
    with the fallback's result as default; and [or_else] holds a value when
    the option or the fallback does. *)
Theorem option_combinators_compose (o : option T) :
  (∀ (f : T → option U) (g : U → option V),
     and_then g (and_then f o) = and_then (λ v, and_then g (f v)) o)
  ∧ (∀ (f : T → option U) v, and_then f (Some v) = f v)
  ∧ and_then Some o = o
  ∧ (∀ f : T → U, transform f o = and_then (λ v, Some (f v)) o)
  ∧ (∀ (f : T → U) (g : U → V),
       transform g (transform f o) = transform (λ v, g (f v)) o
       ∧ Opt.has_value (transform f o) = Opt.has_value o)
  ∧ (∀ (f : T → U) d,
       map_or f d o = match transform f o with Some u => u | None => d end)
  ∧ (∀ (f : T → U) (g : unit → U), map_or_else f g o = map_or f (g ()) o)
  ∧ (∀ g : unit → option T,
       Opt.has_value (or_else g o) = Opt.has_value o || Opt.has_value (g ())
       ∧ (Opt.has_value o = true → or_else g o = o)).
Proof.
  destruct o as [v|]; split_and!; try done; intros; by split.
Qed.
End option_methods_facts.

(** * Instances of the further properties *)

Lemma demo_store_tidy : tidy doubling demo_store.
Proof.
  eapply (tidy_emplace_at _ 1 10
            (SparseArray [None; None; None; Some 30] (Vec [3] 4)));
    [|reflexivity|reflexivity].
  eapply (tidy_emplace_at _ 3 30 (with_size 4)); [|reflexivity|reflexivity].
  apply (tidy_resize _ 4 new); [apply tidy_new|].
  intros i Hi. by apply elem_of_nil in Hi.
Defined.

Lemma first_if_returns_first_match_witness :
  (∀ i, i ∈ elems (alive_vec demo_store) → occupied demo_store i)
  ∧ ∃ r a', first_if (observing (λ v, bool_decide (v = 10)) (λ _ n, S n))
              demo_store 0 = Some (r, a').
Proof.
  destruct demo_store_live_inv as (_ & Hocc & _). split; [exact Hocc|].
  destruct (first_if_returns_first_match demo_store
              (λ v, bool_decide (v = 10)) (λ _ n, S n) 0 Hocc)
    as (r & a' & Hrun & _).
  exists r, a'. exact Hrun.
Defined.

Lemma first_if_after_erase_if_witness :
  live_inv demo_store
  ∧ ∃ st' a', erase_if (observing (λ v, bool_decide (v = 10)) (λ _ n, S n))
                demo_store 0 = Some (st', a')
      ∧ first_if (observing (λ v, bool_decide (v = 10)) (λ _ n, S n)) st' 0
        = Some (None,
                foldl (called_on (λ _ n, S n) (data_vec st')) 0
                  (elems (alive_vec st'))).
Proof.
  split; [exact demo_store_live_inv|].
  exact (first_if_after_erase_if demo_store (λ v, bool_decide (v = 10))
           (λ _ n, S n) 0 (λ _ n, S n) 0 demo_store_live_inv).
Defined.

Lemma erase_if_any_callable_witness :
  live_inv demo_store
  ∧ ∃ st' a', erase_if (λ (v : nat) (n : nat), (bool_decide (n = 0), S n))
                demo_store 0 = Some (st', a')
      ∧ live_inv st'.
Proof.
  split; [exact demo_store_live_inv|].
  destruct (erase_if_any_callable demo_store
              (λ (v : nat) (n : nat), (bool_decide (n = 0), S n)) 0
              demo_store_live_inv) as (st' & a' & Hrun & Hinv & _).
  exists st', a'. split; [exact Hrun|exact Hinv].
Defined.

Lemma erase_if_true_is_clear_witness :
  live_inv demo_store
  ∧ ∃ a', erase_if (observing (λ _ : nat, true) (λ _ (n : nat), S n)) demo_store 0
          = Some (clear demo_store, a').
Proof.
  split; [exact demo_store_live_inv|].
  exact (erase_if_true_is_clear demo_store (λ _ n, S n) 0 demo_store_live_inv).
Defined.

Lemma resize_keeps_invariant_iff_witness :
  live_inv demo_store
  ∧ 1 < 2 ∧ at_ 1 demo_store = Some 10
  ∧ at_ 1 (resize 2 demo_store) = Some 10
  ∧ (live_inv (resize 2 demo_store)
     ↔ ∀ i, i ∈ elems (alive_vec demo_store) → i < 2).
Proof.
  assert (1 < 2) as Hlt by lia.
  assert (at_ 1 demo_store = Some 10) as Hat by reflexivity.
  split; [exact demo_store_live_inv|]. split; [exact Hlt|]. split; [exact Hat|].
  destruct (resize_keeps_invariant_iff demo_store 2)
    as (_ & _ & Hpay & _ & _ & _ & Hiff).
  split; [exact (Hpay 1 10 Hlt Hat)|exact (Hiff demo_store_live_inv)].
Defined.

Lemma tidy_store_invariant_witness :
  tidy doubling demo_store
  ∧ live_inv demo_store
  ∧ size demo_store = count_occupied demo_store.
Proof.
  split; [exact demo_store_tidy|].
  destruct (tidy_store_invariant doubling demo_store demo_store_tidy)
    as (Hinv & Hsize & _).
  split; [exact Hinv|exact Hsize].
Defined.


Lemma emplace_at_next_empty_index_witness :
  tidy doubling demo_store
  ∧ next_empty_index demo_store = Some 0
  ∧ ∃ st', emplace_at doubling 0 5 demo_store = Some (st', 5)
         ∧ tidy doubling st'
         ∧ size st' = S (size demo_store).
Proof.
  assert (next_empty_index demo_store = Some 0) as Hnext by reflexivity.
  split; [exact demo_store_tidy|]. split; [exact Hnext|].
  destruct (emplace_at_next_empty_index doubling demo_store 0 5
              demo_store_tidy Hnext) as (st' & Hrun & Htidy & Hsize & _).
  exists st'. split; [exact Hrun|]. split; [exact Htidy|exact Hsize].
Defined.


Lemma erase_at_twice_witness :
  3 < length (data_vec demo_store)
  ∧ occurrences 3 (elems (alive_vec demo_store)) ≤ 1
  ∧ ∃ st', erase_at 3 demo_store = Some st' ∧ erase_at 3 st' = Some st'.
Proof.
  assert (3 < length (data_vec demo_store)) as Hlt by (simpl; lia).
  assert (occurrences 3 (elems (alive_vec demo_store)) ≤ 1) as Hocc
    by (vm_compute; lia).
  split; [exact Hlt|]. split; [exact Hocc|].
  exact (erase_at_twice demo_store 3 Hlt Hocc).
Defined.

Lemma emplace_at_then_erase_at_witness :
  vacant demo_store 2
  ∧ (2 ∉ elems (alive_vec demo_store))
  ∧ size demo_store < capacity demo_store
  ∧ ∃ st1, emplace_at doubling 2 20 demo_store = Some (st1, 20)
         ∧ erase_at 2 st1 = Some demo_store.
Proof.
  assert (vacant demo_store 2) as Hvac by reflexivity.
  assert (2 ∉ elems (alive_vec demo_store)) as Hfresh.
  { simpl. intros [?|[?|[]%elem_of_nil]%elem_of_cons]%elem_of_cons; lia. }
  assert (size demo_store < capacity demo_store) as Hroom by (vm_compute; lia).
  split; [exact Hvac|]. split; [exact Hfresh|]. split; [exact Hroom|].
  exact (emplace_at_then_erase_at doubling demo_store 2 20 Hvac Hfresh Hroom).
Defined.

Lemma for_each_maps_live_payloads_witness :
  live_inv demo_store
  ∧ ∃ st', for_each (mapping (λ v i, v + i)) demo_store tt = Some (st', tt)
         ∧ alive_vec st' = alive_vec demo_store.
Proof.
  split; [exact demo_store_live_inv|].
  destruct (for_each_maps_live_payloads demo_store (λ v i, v + i)
              demo_store_live_inv) as (st' & Hrun & Halive & _).
  exists st'. split; [exact Hrun|exact Halive].
Defined.

Lemma erase_if_twice_witness :
  live_inv demo_store
  ∧ ∃ st1 st2 a1 a2 a12,
      erase_if (observing (λ v, bool_decide (v = 10)) (λ _ n, S n)) demo_store 0
      = Some (st1, a1)
      ∧ erase_if (observing (λ v, bool_decide (v = 30)) (λ _ n, S n)) st1 a1
        = Some (st2, a2)
      ∧ erase_if (observing (λ v, bool_decide (v = 10) || bool_decide (v = 30))
                    (λ _ n, S n)) demo_store 0
        = Some (st2, a12).
Proof.
  split; [exact demo_store_live_inv|].
  exact (erase_if_twice demo_store (λ v, bool_decide (v = 10))
           (λ v, bool_decide (v = 30)) (λ _ n, S n) 0 demo_store_live_inv).
Defined.

Lemma copy_back_read_from_start_witness :
  ByteBuffer.copy_back [Byte.x61; Byte.x62] (ByteBuffer.with_bytes 4)
  = Some (ByteBuffer.Build
            (Some [Some Byte.x61; Some Byte.x62; None; None]) 2 4)
  ∧ ByteBuffer.load_front 2
      (ByteBuffer.Build (Some [Some Byte.x61; Some Byte.x62; None; None]) 0 4)
    = Some ([Some Byte.x61; Some Byte.x62],
            ByteBuffer.Build
              (Some [Some Byte.x61; Some Byte.x62; None; None]) 2 4).
Proof.
  assert (ByteBuffer.copy_back [Byte.x61; Byte.x62] (ByteBuffer.with_bytes 4)
          = Some (ByteBuffer.Build
                    (Some [Some Byte.x61; Some Byte.x62; None; None]) 2 4))
    as Hcopy by reflexivity.
  split; [exact Hcopy|].
  destruct (copy_back_read_from_start _ _ _ Hcopy) as (_ & _ & _ & Hload).
  exact Hload.
Defined.

Lemma load_front_never_sees_copy_back_witness :
  ByteBuffer.run
    [ByteBuffer.CopyBack [Byte.x61; Byte.x62]; ByteBuffer.LoadFront 2]
    (ByteBuffer.with_bytes 4)
  = Some ([[None; None]],
          ByteBuffer.Build (Some [Some Byte.x61; Some Byte.x62; None; None]) 4 4)
  ∧ Forall (Forall (λ c : ByteBuffer.cell, c = None)) [[None; None]].
Proof.
  assert (ByteBuffer.run
            [ByteBuffer.CopyBack [Byte.x61; Byte.x62]; ByteBuffer.LoadFront 2]
            (ByteBuffer.with_bytes 4)
          = Some ([[None; None]],
                  ByteBuffer.Build
                    (Some [Some Byte.x61; Some Byte.x62; None; None]) 4 4))
    as Hrun by reflexivity.
  split; [exact Hrun|].
  eapply load_front_never_sees_copy_back. right. exists 4. exact Hrun.
Defined.

Lemma reserve_then_copy_back_witness :
  2 + length [Byte.x61; Byte.x62] ≤ 4
  ∧ is_Some (ByteBuffer.copy_back [Byte.x61; Byte.x62]
               (ByteBuffer.reserve 4 (ByteBuffer.Build None 2 0)))
  ∧ (1 < 2 → ByteBuffer.load_front 0
               (ByteBuffer.reserve 1 (ByteBuffer.Build None 2 0)) = None).
Proof.
  assert (2 + length [Byte.x61; Byte.x62] ≤ 4) as Hfit by (simpl; lia).
  destruct (reserve_then_copy_back 4 (ByteBuffer.Build None 2 0)
              [Byte.x61; Byte.x62]) as (_ & _ & _ & Hiff & _).
  destruct (reserve_then_copy_back 1 (ByteBuffer.Build None 2 0)
              [Byte.x61; Byte.x62]) as (_ & _ & _ & _ & Hbelow).
  split; [exact Hfit|]. split; [exact (proj2 Hiff Hfit)|].
  intros Hlt. exact (Hbelow Hlt 0).
Defined.

Lemma option_combinators_compose_witness :
  Opt.has_value (Some 3) = true
  ∧ OptionMethods.or_else (λ _, Some 4) (Some 3) = Some 3.
Proof.
  assert (Opt.has_value (Some 3) = true) as Hsome by reflexivity.
  split; [exact Hsome|].
  destruct (option_combinators_compose (U:=nat) (V:=nat) (Some 3))
    as (_ & _ & _ & _ & _ & _ & _ & Hor).
  exact (proj2 (Hor (λ _, Some 4)) Hsome).
Defined.
